(** * Paillier layer and dual-encryption protocol of the blockchain-based TEAIS

    Shallow embedding of
    - [src/paillierEncryption.js]            (class PaillierEncryption),
    - [src/unnamed/part_002]                 (class CompanyPaillierKeyGenerator),
    - [src/unnamed/part_000]                 (class DualEncryptionProcessor),
    - [src/sampleDataGenerator.js]           (YearEndVerificationSystem.verifyNetworkIntegrity).

    Integers of the [big-integer] library are [Z]; its [.mod] and
    [.divide] truncate toward zero, so they are [Z.rem] and [Z.quot].
    Decimal currency values (JS numbers) are rationals [Q]: rounding
    errors of floating-point arithmetic are not modelled. *)

From Stdlib Require Import ZArith Lia Znumtheory Zcong.
From Stdlib Require Import Zmod.ZmodInv.
From Stdlib Require Import QArith Qabs Qround Lqa.
From Stdlib Require Import List String Bool.
Import ListNotations.

#[local] Open Scope Z_scope.

(** ** The [big-integer] primitives used by the code *)

Module BigInt.

(** [a.modInv(m)]: the extended Euclidean algorithm of the library; it
    throws when [a] and [m] are not coprime, returns the inverse in
    [[0, m)] for [a >= 0] and its negation for [a < 0]. *)
Definition modInv (a m : Z) : option Z :=
  if Z.gcd a m =? 1 then
    Some (if a <? 0 then - Z.invmod (- a) m else Z.invmod a m)
  else None.

(** The square-and-multiply loop of [modPow] for a non-negative exponent:
    it starts from [r = 1] and multiplies modulo [m] (truncated). *)
Fixpoint pow_loop (r base : Z) (e : positive) (m : Z) : Z :=
  match e with
  | xH => Z.rem (r * base) m
  | xO e' => pow_loop r (Z.rem (base * base) m) e' m
  | xI e' => pow_loop (Z.rem (r * base) m) (Z.rem (base * base) m) e' m
  end.

Definition pow_rem (base e m : Z) : Z :=
  match e with
  | Zpos e' => pow_loop 1 base e' m
  | _ => 1
  end.

(** [b.modPow(e, m)]: throws for [m = 0]; reduces the base first; a
    negative exponent inverts the base. *)
Definition modPow (b e m : Z) : option Z :=
  if m =? 0 then None
  else
    let base := Z.rem b m in
    if e <? 0 then
      match modInv base m with
      | Some i => Some (pow_rem i (- e) m)
      | None => None
      end
    else Some (pow_rem base e m).

End BigInt.

(** ** Keys *)

Record PublicKey := { pk_n : Z; pk_g : Z }.
Record PrivateKey := { sk_n : Z; sk_lambda : Z; sk_mu : Z }.
Record Keypair := { publicKey : PublicKey; privateKey : PrivateKey }.

(** [L(x, n) = (x - 1) / n] with the library's truncating division. *)
Definition L (x n : Z) : Z := Z.quot (x - 1) n.

(** [calculateMu(g, lambda, n)] *)
Definition calculateMu (g lambda n : Z) : option Z :=
  let n2 := n * n in
  match BigInt.modPow g lambda n2 with
  | Some gLambda => BigInt.modInv (L gLambda n) n
  | None => None
  end.

(** The body of [generateCompanyKeypair] once the prime pair [(p, q)] is
    read (lines 40-66 of part_002); the constructor of
    [PaillierEncryption] performs the same computation on its fixed
    primes.  A [None] is an exception thrown by [.divide], [modPow] or
    [modInv].  [L] is only reached after [modPow] modulo [n^2] succeeded,
    so its division by [n] never has a zero divisor. *)
Definition keypair_of_primes (p q : Z) : option Keypair :=
  let n := p * q in
  let g := n + 1 in
  let pMinus1 := p - 1 in
  let qMinus1 := q - 1 in
  let gcd := Z.gcd pMinus1 qMinus1 in
  if gcd =? 0 then None (* [.divide] throws on a zero divisor *)
  else
    let lambda := Z.quot (pMinus1 * qMinus1) gcd in
    match calculateMu g lambda n with
    | Some mu =>
        Some {| publicKey := {| pk_n := n; pk_g := g |};
                privateKey := {| sk_n := n; sk_lambda := lambda; sk_mu := mu |} |}
    | None => None
    end.

(** [this.companyPrimePairs] *)
Definition companyPrimePairs : list (Z * Z) :=
  [(1009, 1013); (1019, 1021); (1031, 1033); (1039, 1049);
   (1051, 1061); (1063, 1069); (1087, 1091); (1093, 1097)].

(** [generateCompanyKeypair(companyIndex)] on a generator whose field
    [this.companyPrimePairs] holds [primePairs]: throws when the index
    exceeds the table, otherwise computes the keys from the pair read.
    The field is an ordinary property of the instance, read at each
    call. *)
Definition generateKeypairFrom (primePairs : list (Z * Z)) (companyIndex : nat)
    : option Keypair :=
  match nth_error primePairs companyIndex with
  | Some (p, q) => keypair_of_primes p q
  | None => None
  end.

(** [generateCompanyKeypair(companyIndex)] on a generator as the
    constructor leaves it. *)
Definition generateCompanyKeypair (companyIndex : nat) : option Keypair :=
  generateKeypairFrom companyPrimePairs companyIndex.

(** [new PaillierEncryption(useTestMode)] *)
Definition paillierEncryption (useTestMode : bool) : option Keypair :=
  if useTestMode then keypair_of_primes 61 53 else keypair_of_primes 1009 1013.

(** ** Encryption, decryption, homomorphic addition *)

(** [paillierEncrypt(plaintext, publicKey)] (part_000, part_002) and
    [PaillierEncryption.encrypt] once the random [r] accepted by the
    retry loop is fixed. *)
Definition paillierEncrypt (pub : PublicKey) (m r : Z) : option Z :=
  let n := pk_n pub in
  let n2 := n * n in
  match BigInt.modPow (pk_g pub) m n2, BigInt.modPow r n n2 with
  | Some gm, Some rn => Some (Z.rem (gm * rn) n2)
  | _, _ => None
  end.

(** [paillierDecrypt(ciphertext, privateKey)] and [PaillierEncryption.decrypt]. *)
Definition paillierDecrypt (priv : PrivateKey) (c : Z) : option Z :=
  let n := sk_n priv in
  let n2 := n * n in
  match BigInt.modPow c (sk_lambda priv) n2 with
  | Some cLambda => Some (Z.rem (L cLambda n * sk_mu priv) n)
  | None => None
  end.

(** [PaillierEncryption.add(c1, c2)] *)
Definition paillierAdd (pub : PublicKey) (c1 c2 : Z) : Z :=
  let n := pk_n pub in Z.rem (c1 * c2) (n * n).

(** ** Valid key pairs *)

(** Trial division, used to certify the primes of the tables. *)
Definition primeb (p : Z) : bool :=
  (1 <? p) &&
  forallb (fun d => negb (p mod d =? 0))
    (map (fun i => 2 + Z.of_nat i) (seq 0 (Z.to_nat (p - 2)))).

(** A key pair the code produces from two distinct primes. *)
Definition valid_keypair (kp : Keypair) : Prop :=
  exists p q, Z.prime p /\ Z.prime q /\ p <> q /\ keypair_of_primes p q = Some kp.

(** Carmichael's function of [n = p q] as the code computes it. *)
Definition lambda_of (p q : Z) : Z := Z.quot ((p - 1) * (q - 1)) (Z.gcd (p - 1) (q - 1)).

(** [c] is an encryption of [m] with randomness [s] under modulus [n]. *)
Definition encodes (n c m s : Z) : Prop :=
  0 <= c /\ c mod (n * n) = ((1 + m * n) * s ^ n) mod (n * n) /\ Z.gcd s n = 1.

(** What a valid key pair guarantees to encryption and decryption. *)
Record key_facts (kp : Keypair) : Prop := {
  kf_n_ge : 2 <= pk_n (publicKey kp);
  kf_g : pk_g (publicKey kp) = pk_n (publicKey kp) + 1;
  kf_sk_n : sk_n (privateKey kp) = pk_n (publicKey kp);
  kf_lambda_pos : 0 < sk_lambda (privateKey kp);
  kf_mu_nonneg : 0 <= sk_mu (privateKey kp);
  kf_mu_inv : (sk_mu (privateKey kp) * sk_lambda (privateKey kp)) mod pk_n (publicKey kp) = 1;
  kf_carmichael : forall r, Z.gcd r (pk_n (publicKey kp)) = 1 ->
    (r ^ sk_lambda (privateKey kp)) ^ pk_n (publicKey kp)
      mod (pk_n (publicKey kp) * pk_n (publicKey kp)) = 1
}.

(** ** The retry loop drawing [r] *)

(** [do { r = randBetween(1, n) } while (gcd(r, n) != 1)] run on the
    stream [draws] of random values: the loop stops at the first draw
    coprime to [n] and has no other exit. *)
Inductive retry (n : Z) (draws : nat -> Z) : nat -> Z -> Prop :=
| retry_accept i : Z.gcd (draws i) n = 1 -> retry n draws i (draws i)
| retry_again i r : Z.gcd (draws i) n <> 1 -> retry n draws (S i) r -> retry n draws i r.

(** How a call of an encryption routine ends: with a ciphertext or with
    an exception. *)
Inductive outcome := Returns (c : Z) | Raises (err : string).

(** [paillierEncrypt(m, pub)] with the random source [draws]. *)
Inductive encrypt_run (pub : PublicKey) (m : Z) (draws : nat -> Z) : outcome -> Prop :=
| encrypt_ok r c :
    retry (pk_n pub) draws 0 r -> paillierEncrypt pub m r = Some c -> encrypt_run pub m draws (Returns c)
| encrypt_throws r :
    retry (pk_n pub) draws 0 r -> paillierEncrypt pub m r = None ->
    encrypt_run pub m draws (Raises "modPow").

(** The values the loop of [DualEncryptionProcessor.paillierEncrypt] can
    leave in [r]: drawn from [[1, n]] and coprime to [n]. *)
Definition accepted (n r : Z) : Prop := 1 <= r <= n /\ Z.gcd r n = 1.

(** ** Companies and their lookup map *)

Record Company := { c_id : string; c_name : string; c_keys : Keypair }.

(** [this.companyLookup], a [Map] from ids and names to companies. *)
Definition Registry := string -> option Company.

Definition map_set (m : Registry) (k : string) (c : Company) : Registry :=
  fun k' => if String.eqb k' k then Some c else m k'.

(** [initializeCompanies]: every company is entered under its id, then
    under its name. *)
Definition buildCompanyLookup (companies : list Company) : Registry :=
  fold_left (fun m c => map_set (map_set m (c_id c) c) (c_name c) c) companies (fun _ => None).

Definition registry_valid (lookup : Registry) : Prop :=
  forall k c, lookup k = Some c -> valid_keypair (c_keys c).

(** [Math.round]: ties go toward [+infinity]. *)
Definition mathRound (x : Q) : Z := Qfloor (x + (1 # 2))%Q.

Definition Qltb (x y : Q) : bool := negb (Qle_bool y x).

(** ** [dualEncryptAmount] *)

Record DualEncryption := {
  originalAmount : Q;
  amountInCents : Z;
  de_senderId : string;
  de_recipientId : string;
  senderEncrypted : Z;
  recipientEncrypted : Z;
  senderPaillierN : Z;
  recipientPaillierN : Z
}.

(** [rs] and [rr] are the values accepted by the retry loops of the two
    calls of [paillierEncrypt]; [None] is a thrown exception. *)
Definition dualEncryptAmount (lookup : Registry) (amount : Q) (senderId recipientId : string)
    (rs rr : Z) : option DualEncryption :=
  match lookup senderId, lookup recipientId with
  | Some sender, Some recipient =>
      let cents := mathRound (amount * 100)%Q in
      match paillierEncrypt (publicKey (c_keys sender)) cents rs,
            paillierEncrypt (publicKey (c_keys recipient)) cents rr with
      | Some se, Some re =>
          Some {| originalAmount := amount; amountInCents := cents;
                  de_senderId := senderId; de_recipientId := recipientId;
                  senderEncrypted := se; recipientEncrypted := re;
                  senderPaillierN := pk_n (publicKey (c_keys sender));
                  recipientPaillierN := pk_n (publicKey (c_keys recipient)) |}
      | _, _ => None
      end
  | _, _ => None
  end.

(** ** Transactions *)

(** The fields of a transaction row read by the processor; the two
    ciphertext columns hold decimal strings, parsed by [bigInt]. *)
Record Tx := {
  tx_num : Z;
  seller : string;
  buyer : string;
  sender_id : string;
  recipient_id : string;
  amount : Q;
  he_sender : Z;
  he_recipient : Z
}.

(** A transaction as [processDualEncryption] leaves it after a successful
    [dualEncryptAmount]. *)
Definition dual_encrypted (lookup : Registry) (tx : Tx) : Prop :=
  exists s r rs rr d,
    lookup (sender_id tx) = Some s /\ lookup (recipient_id tx) = Some r /\
    accepted (pk_n (publicKey (c_keys s))) rs /\ accepted (pk_n (publicKey (c_keys r))) rr /\
    dualEncryptAmount lookup (amount tx) (sender_id tx) (recipient_id tx) rs rr = Some d /\
    he_sender tx = senderEncrypted d /\ he_recipient tx = recipientEncrypted d.

(** ** [verifyDualEncryption] *)

Inductive Role := RoleSender | RoleRecipient | RoleThirdParty.

Record VerificationResult := {
  v_companyId : string;
  v_role : option Role;
  canDecrypt : bool;
  verified : bool;
  decryptedCents : option Z;
  decryptedAmount : option Q
}.

(** [None] is the exception thrown for an unknown company id; the
    [catch] branch (a failed decryption) has no [role] field. *)
Definition verifyDualEncryption (lookup : Registry) (tx : Tx) (companyId : string)
    : option VerificationResult :=
  match lookup companyId with
  | None => None
  | Some company =>
      let decrypt_as (role : Role) (c : Z) :=
        match paillierDecrypt (privateKey (c_keys company)) c with
        | Some dc =>
            let da := (inject_Z dc / 100)%Q in
            {| v_companyId := companyId; v_role := Some role; canDecrypt := true;
               verified := Qltb (Qabs (da - amount tx)%Q) (1 # 100);
               decryptedCents := Some dc; decryptedAmount := Some da |}
        | None =>
            {| v_companyId := companyId; v_role := None; canDecrypt := false;
               verified := false; decryptedCents := None; decryptedAmount := None |}
        end in
      if String.eqb (sender_id tx) companyId then Some (decrypt_as RoleSender (he_sender tx))
      else if String.eqb (recipient_id tx) companyId then Some (decrypt_as RoleRecipient (he_recipient tx))
      else Some {| v_companyId := companyId; v_role := Some RoleThirdParty; canDecrypt := false;
                   verified := false; decryptedCents := None; decryptedAmount := None |}
  end.

(** ** [calculateCompanyHomomorphicSum] *)

(** [direction === "sent"] or any other value. *)
Inductive Direction := Sent | Received.

Definition party_of (dir : Direction) (tx : Tx) : string :=
  match dir with Sent => sender_id tx | Received => recipient_id tx end.

Definition ciphertext_of (dir : Direction) (tx : Tx) : Z :=
  match dir with Sent => he_sender tx | Received => he_recipient tx end.

(** [calculatePaillierSum(encryptedValues, publicKey)] *)
Definition calculatePaillierSum (values : list Z) (pub : PublicKey) : Z :=
  match values with
  | [] => 0
  | _ =>
      let n2 := pk_n pub * pk_n pub in
      fold_left (fun sum value => if sum =? 0 then value else Z.rem (sum * value) n2) values 0
  end.

Record HomomorphicSum := {
  hs_companyId : string;
  hs_direction : Direction;
  transactionCount : nat;
  homomorphicSum : option Z;  (* [null] when no transaction matches *)
  actualSum : Q
}.

Definition relevantTransactions (txs : list Tx) (companyId : string) (dir : Direction) : list Tx :=
  filter (fun tx => String.eqb (party_of dir tx) companyId) txs.

Definition calculateCompanyHomomorphicSum (lookup : Registry) (txs : list Tx)
    (companyId : string) (dir : Direction) : option HomomorphicSum :=
  match lookup companyId with
  | None => None
  | Some company =>
      let relevant := relevantTransactions txs companyId dir in
      match relevant with
      | [] => Some {| hs_companyId := companyId; hs_direction := dir; transactionCount := 0;
                      homomorphicSum := None; actualSum := 0%Q |}
      | _ =>
          let encryptedAmounts := map (ciphertext_of dir) relevant in
          Some {| hs_companyId := companyId; hs_direction := dir;
                  transactionCount := List.length relevant;
                  homomorphicSum := Some (calculatePaillierSum encryptedAmounts
                                            (publicKey (c_keys company)));
                  actualSum := fold_left (fun sum tx => sum + amount tx)%Q relevant 0%Q |}
      end
  end.

(** ** Year-end verification *)

Record CompanyVerification := {
  cv_companyId : string;
  sentCount : nat;
  receivedCount : nat;
  actualSent : Q;
  actualReceived : Q;
  cv_verified : bool
}.

(** [generateCompanyFinancialStatement(company, transactions)] *)
Definition generateCompanyFinancialStatement (lookup : Registry) (company : Company)
    (txs : list Tx) : option CompanyVerification :=
  match calculateCompanyHomomorphicSum lookup txs (c_id company) Sent,
        calculateCompanyHomomorphicSum lookup txs (c_id company) Received with
  | Some sentSum, Some receivedSum =>
      let actualSentTotal := actualSum sentSum in
      let actualReceivedTotal := actualSum receivedSum in
      let sentVerified := Qltb (Qabs (actualSentTotal - actualSum sentSum)%Q) (1 # 100) in
      let receivedVerified := Qltb (Qabs (actualReceivedTotal - actualSum receivedSum)%Q) (1 # 100) in
      Some {| cv_companyId := c_id company; sentCount := transactionCount sentSum;
              receivedCount := transactionCount receivedSum;
              actualSent := actualSentTotal; actualReceived := actualReceivedTotal;
              cv_verified := sentVerified && receivedVerified |}
  | _, _ => None
  end.

Record NetworkIntegrity := {
  totalSent : Q;
  totalReceived : Q;
  networkBalance : Q;
  networkBalanced : bool;
  duplicateTransactions : list Z;
  allCompaniesVerified : bool
}.

(** [verifyNetworkIntegrity(transactions, companyResults)] *)
Definition verifyNetworkIntegrity (txs : list Tx) (companyResults : list CompanyVerification)
    : NetworkIntegrity :=
  let totalSent := fold_left (fun sum c => sum + actualSent c)%Q companyResults 0%Q in
  let totalReceived := fold_left (fun sum c => sum + actualReceived c)%Q companyResults 0%Q in
  let balance := (totalReceived - totalSent)%Q in
  let '(_, dups) :=
    fold_left (fun '(seen, dups) tx =>
                 if existsb (Z.eqb (tx_num tx)) seen then (seen, dups ++ [tx_num tx])
                 else (seen ++ [tx_num tx], dups)) txs ([], []) in
  {| totalSent := totalSent; totalReceived := totalReceived; networkBalance := balance;
     networkBalanced := Qltb (Qabs balance) (1 # 100);
     duplicateTransactions := dups;
     allCompaniesVerified := forallb cv_verified companyResults |}.

(** [performYearEndVerification(encryptedTransactions)] on a processor
    built from [companies]; [verificationResults] is the instance array
    [this.verificationResults] the statements are pushed onto. *)
Definition performYearEndVerification (verificationResults : list CompanyVerification)
    (companies : list Company) (txs : list Tx)
    : option (list CompanyVerification * NetworkIntegrity) :=
  let lookup := buildCompanyLookup companies in
  match fold_left (fun acc company =>
                     match acc, generateCompanyFinancialStatement lookup company txs with
                     | Some rs, Some cv => Some (rs ++ [cv])
                     | _, _ => None
                     end) companies (Some verificationResults) with
  | Some results => Some (results, verifyNetworkIntegrity txs results)
  | None => None
  end.

(** ** Concrete keys and companies *)

(** The keys of [new PaillierEncryption()] (primes 1009 and 1013). *)
Definition paillier_default_keys : Keypair :=
  {| publicKey := {| pk_n := 1022117; pk_g := 1022118 |};
     privateKey := {| sk_n := 1022117; sk_lambda := 255024; sk_mu := 749013 |} |}.

(** Three companies of the demo, keyed with the first three prime pairs. *)
Definition demo_companies : list Company :=
  match generateCompanyKeypair 0, generateCompanyKeypair 1, generateCompanyKeypair 2 with
  | Some k0, Some k1, Some k2 =>
      [{| c_id := "TC001"; c_name := "TechCorp Solutions"; c_keys := k0 |};
       {| c_id := "GM002"; c_name := "Global Manufacturing Inc"; c_keys := k1 |};
       {| c_id := "SC003"; c_name := "Supply Chain Logistics"; c_keys := k2 |}]
  | _, _, _ => []
  end.

Definition demo_lookup : Registry := buildCompanyLookup demo_companies.

(** A $20,000.00 sale from TC001 to GM002, dual-encrypted with the draws
    [r = 2] and [r = 3]: 2,000,000 cents exceed both moduli. *)
Definition wrap_tx : Tx :=
  let d := dualEncryptAmount demo_lookup 20000 "TC001" "GM002" 2 3 in
  {| tx_num := 1; seller := "TechCorp Solutions"; buyer := "Global Manufacturing Inc";
     sender_id := "TC001"; recipient_id := "GM002"; amount := 20000;
     he_sender := match d with Some d => senderEncrypted d | None => 0 end;
     he_recipient := match d with Some d => recipientEncrypted d | None => 0 end |}.

(** A $15.00 sale from TC001 to SC003, dual-encrypted with the draws
    [r = 5] and [r = 7]. *)
Definition small_tx : Tx :=
  let d := dualEncryptAmount demo_lookup 15 "TC001" "SC003" 5 7 in
  {| tx_num := 2; seller := "TechCorp Solutions"; buyer := "Supply Chain Logistics";
     sender_id := "TC001"; recipient_id := "SC003"; amount := 15;
     he_sender := match d with Some d => senderEncrypted d | None => 0 end;
     he_recipient := match d with Some d => recipientEncrypted d | None => 0 end |}.

(** The first index at or after [i] whose draw is coprime to [n]. *)
Definition first_coprime_from (n : Z) (draws : nat -> Z) (i k : nat) : Prop :=
  (i <= k)%nat /\ Z.gcd (draws k) n = 1 /\
  forall j, (i <= j < k)%nat -> Z.gcd (draws j) n <> 1.

(** The sum of the amounts in cents, [Math.round(amount * 100)], of a
    list of transactions. *)
Definition sum_cents (txs : list Tx) : Z :=
  fold_right (fun tx s => mathRound (amount tx * 100)%Q + s) 0 txs.

(** The sum of a list of rationals. *)
Definition qsum (l : list Q) : Q := fold_right Qplus 0%Q l.

(** The declared totals of a statement are the sums of the recorded
    amounts of the company's transactions. *)
Definition statement_sums_ok (txs : list Tx) (c : Company) (cv : CompanyVerification) : Prop :=
  (actualSent cv == qsum (map amount (relevantTransactions txs (c_id c) Sent)))%Q /\
  (actualReceived cv == qsum (map amount (relevantTransactions txs (c_id c) Received)))%Q.

(** ** [processDualEncryption] over JavaScript objects *)

Module JS.

#[local] Open Scope string_scope.

(** The values a transaction row holds: a plain data object whose own
    properties are kept in insertion order. *)
#[warnings="-register-all"]
Inductive jsval :=
| JUndefined
| JNull
| JBool (b : bool)
| JNum (q : Q)
| JNaN
| JStr (s : string)
| JObj (o : list (string * jsval)).

Definition jsobj := list (string * jsval).

(** A call that returns a value or throws an [Error] with a message. *)
Inductive result (A : Type) := Ok (a : A) | Throws (message : string).
Arguments Ok {A} a.
Arguments Throws {A} message.

(** [!!v] *)
Definition truthy (v : jsval) : bool :=
  match v with
  | JUndefined | JNull | JNaN => false
  | JBool b => b
  | JNum q => negb (Qeq_bool q 0)
  | JStr s => negb (String.eqb s "")
  | JObj _ => true
  end.

(** [o[k]] on an own property; [undefined] when absent. *)
Fixpoint get (o : jsobj) (k : string) : jsval :=
  match o with
  | [] => JUndefined
  | (k', v) :: o' => if String.eqb k' k then v else get o' k
  end.

(** [o[k] = v]: an existing property keeps its place, a new one is
    appended. *)
Fixpoint set (o : jsobj) (k : string) (v : jsval) : jsobj :=
  match o with
  | [] => [(k, v)]
  | (k', v') :: o' => if String.eqb k' k then (k, v) :: o' else (k', v') :: set o' k v
  end.

Definition keys (o : jsobj) : list string := map fst o.

(** [{ ...o, k1: v1, ..., kn: vn }] *)
Definition spread (o : jsobj) (props : list (string * jsval)) : jsobj :=
  fold_left (fun acc '(k, v) => set acc k v) props o.

(** [try { body } catch (error) { handler(error.message) }] *)
Definition try_catch {A : Type} (body : result A) (handler : string -> result A) : result A :=
  match body with
  | Ok a => Ok a
  | Throws msg => handler msg
  end.

Definition bind {A B : Type} (r : result A) (f : A -> result B) : result B :=
  match r with
  | Ok a => f a
  | Throws msg => Throws msg
  end.

(** [Array.prototype.map] with the index: the first exception thrown by
    the callback is rethrown. *)
Fixpoint map_indexed {A B : Type} (f : A -> nat -> result B) (i : nat) (l : list A)
    : result (list B) :=
  match l with
  | [] => Ok []
  | x :: l' =>
      bind (f x i) (fun y => bind (map_indexed f (S i) l') (fun ys => Ok (y :: ys)))
  end.

(** The properties written on a successfully encrypted transaction. *)
Definition success_props (d : jsobj) (timestamp : jsval) : list (string * jsval) :=
  [("HE_pk_sender(amount)", get d "senderEncrypted");
   ("HE_pk_recipient(amount)", get d "recipientEncrypted");
   ("dual_encryption_metadata",
      JObj [("encryptionTimestamp", get d "encryptionTimestamp");
            ("senderPaillierN", get d "senderPaillierN");
            ("recipientPaillierN", get d "recipientPaillierN");
            ("encryptionMethod", JStr "dual_paillier");
            ("originalAmount", get d "originalAmount");
            ("amountInCents", get d "amountInCents")]);
   ("dual_encrypted", JBool true);
   ("processing_timestamp", timestamp)].

Definition success_keys : list string :=
  ["HE_pk_sender(amount)"; "HE_pk_recipient(amount)"; "dual_encryption_metadata";
   "dual_encrypted"; "processing_timestamp"]%string.

(** [processDualEncryption(transactions)], for any behaviour of
    [this.dualEncryptAmount] (a result object or a thrown error) and of
    [Date.now()] (read at each index).  The logging reads [seller] and
    [buyer] only to print them. *)
Definition processDualEncryption
    (dualEncryptAmount : jsval -> jsval -> jsval -> result jsobj)
    (now : nat -> jsval) (transactions : list jsobj) : result (list jsobj) :=
  map_indexed (fun transaction index =>
    let senderId := get transaction "sender_id" in
    let recipientId := get transaction "recipient_id" in
    if negb (truthy senderId) || negb (truthy recipientId) then Ok transaction
    else
      try_catch
        (bind (dualEncryptAmount (get transaction "amount") senderId recipientId)
              (fun dualEncryption =>
                 Ok (spread transaction (success_props dualEncryption (now index)))))
        (fun message =>
           Ok (spread transaction [("dual_encrypted", JBool false);
                                   ("encryption_error", JStr message)])))
    0 transactions.

(** What the map callback of [processDualEncryption] makes of one
    transaction. *)
Definition processed (dualEncryptAmount : jsval -> jsval -> jsval -> result jsobj)
    (tx out : jsobj) : Prop :=
  let senderId := get tx "sender_id" in
  let recipientId := get tx "recipient_id" in
  ((truthy senderId = false \/ truthy recipientId = false) /\ out = tx) \/
  (truthy senderId = true /\ truthy recipientId = true /\
   ((exists message,
       dualEncryptAmount (get tx "amount") senderId recipientId = Throws message /\
       get out "dual_encrypted" = JBool false /\
       get out "encryption_error" = JStr message /\
       (forall k, In k (keys tx) -> In k (keys out)) /\
       (forall k, k <> "dual_encrypted" -> k <> "encryption_error" -> get out k = get tx k)) \/
    (exists d,
       dualEncryptAmount (get tx "amount") senderId recipientId = Ok d /\
       get out "dual_encrypted" = JBool true /\
       (forall k, In k (keys tx) -> In k (keys out)) /\
       (forall k, ~ In k success_keys -> get out k = get tx k)))).

End JS.


(** ** Self-test of the generated company keys (part_002) *)

(** [testKeypair(keypair, testValue)] with [r] the value accepted by the
    retry loop of [paillierEncrypt]: encrypt, decrypt, compare with the
    test value.  [None] is a thrown exception. *)
Definition testKeypair (kp : Keypair) (testValue r : Z) : option bool :=
  match paillierEncrypt (publicKey kp) testValue r with
  | Some encrypted =>
      match paillierDecrypt (privateKey kp) encrypted with
      | Some decrypted => Some (decrypted =? testValue)
      | None => None
      end
  | None => None
  end.

(** The [for] loop of [generateAllCompanyKeypairs] from index [i], with
    [k] iterations left: generate, test with the default value 12345,
    push or throw.  [rs i] is the draw accepted by the encryption of the
    [i]-th test. *)
Fixpoint generate_loop (i k : nat) (rs : nat -> Z) (companyKeypairs : list Keypair)
    : option (list Keypair) :=
  match k with
  | O => Some companyKeypairs
  | S k' =>
      match generateCompanyKeypair i with
      | Some keypair =>
          match testKeypair keypair 12345 (rs i) with
          | Some true => generate_loop (S i) k' rs (companyKeypairs ++ [keypair])
          | _ => None
          end
      | None => None
      end
  end.

(** [generateAllCompanyKeypairs()] *)
Definition generateAllCompanyKeypairs (rs : nat -> Z) : option (list Keypair) :=
  generate_loop 0 (List.length companyPrimePairs) rs [].

(** ** [encryptAmounts] and [calculateHomomorphicSum] (excelOperations.js) *)

(** The fields of a row returned by [encryptAmounts]: the row's own
    fields are kept by [...row], of which only [amount] is read.  As for
    [Tx], a ciphertext column holds the decimal string of the ciphertext,
    and the integer [bigInt] parses back from it is kept. *)
Record EncryptedRow := {
  er_amount : Q;
  he_pk_sender : Z;        (* ["HE_pk_sender(amount)"] *)
  he_pk_recipient : Z;     (* ["HE_pk_recipient(amount)"] *)
  original_amount_cents : Z;
  encryptable_amount : Z
}.

(** The [data.map] of [encryptAmounts(data, paillier)] from row index
    [i], on the [amount] values (numbers, which [parseFloat] returns
    unchanged).  [rs i] holds the draws accepted by the retry loops of the
    two calls [paillier.encrypt(encryptableAmount)] of row [i]. *)
Fixpoint encrypt_rows (pub : PublicKey) (rs : nat -> Z * Z) (i : nat) (amounts : list Q)
    : option (list EncryptedRow) :=
  match amounts with
  | [] => Some []
  | a :: rest =>
      let amountInCents := mathRound (a * 100)%Q in
      let maxValue := pk_n pub in
      if maxValue =? 0 then None (* [.mod] throws on a zero modulus *)
      else
        let encryptableAmount := Z.rem amountInCents maxValue in
        match paillierEncrypt pub encryptableAmount (fst (rs i)),
              paillierEncrypt pub encryptableAmount (snd (rs i)) with
        | Some cs, Some cr =>
            match encrypt_rows pub rs (S i) rest with
            | Some out =>
                Some ({| er_amount := a; he_pk_sender := cs; he_pk_recipient := cr;
                         original_amount_cents := amountInCents;
                         encryptable_amount := encryptableAmount |} :: out)
            | None => None
            end
        | _, _ => None
        end
  end.

(** [encryptAmounts(data, paillier)] *)
Definition encryptAmounts (pub : PublicKey) (amounts : list Q) (rs : nat -> Z * Z)
    : option (list EncryptedRow) :=
  encrypt_rows pub rs 0 amounts.

(** [calculateHomomorphicSum(data, paillier)]: 0 for no row, otherwise
    the first sender ciphertext combined with the others by
    [paillier.add]. *)
Definition calculateHomomorphicSum (pub : PublicKey) (data : list EncryptedRow) : Z :=
  match map he_pk_sender data with
  | [] => 0
  | first :: rest => fold_left (fun sum c => paillierAdd pub sum c) rest first
  end.

(** ** [processAccounting] (index.js) *)

(** The [reduce] computing [actualEncryptableSum]: each amount in cents
    reduced with [.mod(paillier.n)], added, reduced again. *)
Definition encryptableSum (n : Z) (amounts : list Q) : Z :=
  fold_left (fun sum a => Z.rem (sum + Z.rem (mathRound (a * 100)%Q) n) n) amounts 0.

(** What [processAccounting] computes besides its log lines. *)
Record AccountingReport := {
  encryptedData : list EncryptedRow;
  decryptedSum : Z;
  actualEncryptableSum : Z;
  storedEncryptableSum : Z;
  isVerified : bool;
  sumDifference : Z
}.

(** [processAccounting(data)] with [new PaillierEncryption()]; [None] is a
    thrown exception.  On a mismatch the code computes
    [sumDifference.multiply(10000).divide(actualEncryptableSum)], which
    throws for a zero divisor. *)
Definition processAccounting (amounts : list Q) (rs : nat -> Z * Z) : option AccountingReport :=
  match paillierEncryption false with
  | None => None
  | Some paillier =>
      let n := pk_n (publicKey paillier) in
      match encryptAmounts (publicKey paillier) amounts rs with
      | None => None
      | Some encrypted =>
          let totalSum := calculateHomomorphicSum (publicKey paillier) encrypted in
          match paillierDecrypt (privateKey paillier) totalSum with
          | None => None
          | Some decrypted =>
              let actual := encryptableSum n amounts in
              let stored := encryptableSum n (map er_amount encrypted) in
              let verified := decrypted =? actual in
              let difference := Z.abs (decrypted - actual) in
              if negb verified && (actual =? 0) then None
              else Some {| encryptedData := encrypted; decryptedSum := decrypted;
                           actualEncryptableSum := actual; storedEncryptableSum := stored;
                           isVerified := verified; sumDifference := difference |}
          end
      end
  end.

(** The facts about a row of [encryptAmounts] built from the amount [a]
    under the key [kp]. *)
Definition encrypted_row_ok (kp : Keypair) (a : Q) (row : EncryptedRow) : Prop :=
  er_amount row = a /\
  original_amount_cents row = mathRound (a * 100)%Q /\
  encryptable_amount row = Z.rem (mathRound (a * 100)%Q) (pk_n (publicKey kp)) /\
  (exists r, 0 <= r /\ Z.gcd r (pk_n (publicKey kp)) = 1 /\
     paillierEncrypt (publicKey kp) (encryptable_amount row) r = Some (he_pk_sender row)) /\
  (exists r, 0 <= r /\ Z.gcd r (pk_n (publicKey kp)) = 1 /\
     paillierEncrypt (publicKey kp) (encryptable_amount row) r = Some (he_pk_recipient row)).

(** Draws a retry loop of [PaillierEncryption.encrypt] can accept, for
    the two encryptions of every row. *)
Definition draws_ok (n : Z) (rs : nat -> Z * Z) : Prop :=
  forall i, 0 <= fst (rs i) /\ Z.gcd (fst (rs i)) n = 1 /\
            0 <= snd (rs i) /\ Z.gcd (snd (rs i)) n = 1.

(** The keys [initializeCompanies] enters into [companyLookup]. *)
Definition company_keys (companies : list Company) : list string :=
  map c_id companies ++ map c_name companies.

(** * Proofs *)

Example keypair_1009_1013 :
  option_map (fun kp => (pk_n (publicKey kp), sk_lambda (privateKey kp), sk_mu (privateKey kp)))
    (keypair_of_primes 1009 1013) = Some (1022117, 255024, 749013).
Proof. vm_compute. reflexivity. Qed.

Example roundtrip_12345 :
  match keypair_of_primes 1009 1013 with
  | Some kp =>
      match paillierEncrypt (publicKey kp) 12345 7 with
      | Some c => paillierDecrypt (privateKey kp) c
      | None => None
      end
  | None => None
  end = Some 12345.
Proof. vm_compute. reflexivity. Qed.

Example keypair_3_7_throws : keypair_of_primes 3 7 = None.
Proof. vm_compute. reflexivity. Qed.

Example keypair_1009_1009 : exists kp, keypair_of_primes 1009 1009 = Some kp.
Proof. vm_compute. eexists. reflexivity. Qed.

(** ** Arithmetic of the primitives *)

Lemma rem_pow_l (x m : Z) (k : nat) :
  m <> 0 -> Z.rem (Z.rem x m ^ Z.of_nat k) m = Z.rem (x ^ Z.of_nat k) m.
Proof.
  intros Hm. induction k as [|k IH].
  - reflexivity.
  - rewrite Nat2Z.inj_succ, !Z.pow_succ_r by lia.
    rewrite (Z.mul_rem (Z.rem x m)), (Z.mul_rem x) by exact Hm.
    rewrite IH, Z.rem_rem by exact Hm. reflexivity.
Qed.

Lemma rem_pow_l_Z (x m e : Z) :
  m <> 0 -> 0 <= e -> Z.rem (Z.rem x m ^ e) m = Z.rem (x ^ e) m.
Proof.
  intros Hm He. rewrite <- (Z2Nat.id e He). apply rem_pow_l, Hm.
Qed.

Lemma rem_mul_idemp_l (x y m : Z) : m <> 0 -> Z.rem (Z.rem x m * y) m = Z.rem (x * y) m.
Proof.
  intros Hm. rewrite Z.mul_rem, Z.rem_rem, <- Z.mul_rem by exact Hm. reflexivity.
Qed.

Lemma rem_mul_idemp_r (x y m : Z) : m <> 0 -> Z.rem (x * Z.rem y m) m = Z.rem (x * y) m.
Proof.
  intros Hm. rewrite !(Z.mul_comm x). apply rem_mul_idemp_l, Hm.
Qed.

Lemma rem_mul_pow_idemp (x z e m : Z) :
  m <> 0 -> 0 <= e -> Z.rem (x * Z.rem z m ^ e) m = Z.rem (x * z ^ e) m.
Proof.
  intros Hm He.
  rewrite <- rem_mul_idemp_r, rem_pow_l_Z, rem_mul_idemp_r by assumption. reflexivity.
Qed.

Lemma pow_loop_spec (e : positive) : forall r b m,
  m <> 0 -> BigInt.pow_loop r b e m = Z.rem (r * b ^ Z.pos e) m.
Proof.
  induction e as [e IH|e IH|]; intros r b m Hm; simpl BigInt.pow_loop.
  - rewrite IH, rem_mul_idemp_l, rem_mul_pow_idemp by lia.
    f_equal. rewrite Pos2Z.inj_xI, Z.pow_add_r, Z.pow_mul_r, Z.pow_2_r, Z.pow_1_r by lia.
    ring.
  - rewrite IH, rem_mul_pow_idemp by lia.
    f_equal. rewrite Pos2Z.inj_xO, Z.pow_mul_r, Z.pow_2_r by lia. reflexivity.
  - rewrite Z.pow_1_r. reflexivity.
Qed.

Lemma pow_rem_pos (b e m : Z) :
  m <> 0 -> 0 < e -> BigInt.pow_rem b e m = Z.rem (b ^ e) m.
Proof.
  intros Hm He. destruct e as [|e|e]; try lia. unfold BigInt.pow_rem.
  rewrite pow_loop_spec by exact Hm. rewrite Z.mul_1_l. reflexivity.
Qed.

(** For a non-negative base and a positive modulus, [modPow] with a
    positive exponent is the modular power. *)
Lemma modPow_pos (b e m : Z) :
  0 <= b -> 0 < m -> 0 < e -> BigInt.modPow b e m = Some ((b ^ e) mod m).
Proof.
  intros Hb Hm He. unfold BigInt.modPow.
  destruct (Z.eqb_spec m 0) as [|_]; [lia|].
  destruct (Z.ltb_spec e 0) as [|_]; [lia|].
  rewrite pow_rem_pos by lia.
  rewrite Z.rem_mod_nonneg with (a := b) by lia.
  rewrite Z.rem_mod_nonneg by (try apply Z.pow_nonneg; try apply Z.mod_pos_bound; lia).
  rewrite Z.mod_pow_l. reflexivity.
Qed.

(** [(1 + a n)^k = 1 + k a n  (mod n^2)] *)
Lemma binomial_mod (a n k : Z) :
  0 <= k -> n <> 0 -> (1 + a * n) ^ k mod (n * n) = (1 + k * a * n) mod (n * n).
Proof.
  intros Hk Hn. pattern k. apply natlike_ind; [| |exact Hk].
  - reflexivity.
  - intros j Hj IH. rewrite Z.pow_succ_r by exact Hj.
    rewrite <- Z.mul_mod_idemp_r, IH, Z.mul_mod_idemp_r by nia.
    replace ((1 + a * n) * (1 + j * a * n))
      with (1 + Z.succ j * a * n + (j * a * a) * (n * n)) by ring.
    apply Z.mod_add. nia.
Qed.

(** [1 + u n] reduced modulo [n^2] *)
Lemma one_plus_mod_sq (u n : Z) :
  2 <= n -> (1 + u * n) mod (n * n) = 1 + (u mod n) * n.
Proof.
  intros Hn.
  rewrite (Z.div_mod u n) at 1 by lia.
  replace (1 + (n * (u / n) + u mod n) * n) with (1 + (u mod n) * n + (u / n) * (n * n)) by ring.
  rewrite Z.mod_add by nia.
  pose proof (Z.mod_pos_bound u n ltac:(lia)).
  apply Z.mod_small. nia.
Qed.

Lemma L_one_plus (w n : Z) : n <> 0 -> L (1 + w * n) n = w.
Proof.
  intros Hn. unfold L. replace (1 + w * n - 1) with (w * n) by ring.
  apply Z.quot_mul, Hn.
Qed.

(** ** Key generation from two distinct primes *)

Section KeyFacts.

Variables p q : Z.
Hypothesis Hp : Z.prime p.
Hypothesis Hq : Z.prime q.
Hypothesis Hpq : p <> q.

Lemma gcd_pm1_pos : 0 < Z.gcd (p - 1) (q - 1).
Proof.
  pose proof (Z.prime_ge_2 _ Hp). pose proof (Z.gcd_nonneg (p - 1) (q - 1)).
  destruct (Z.eq_dec (Z.gcd (p - 1) (q - 1)) 0) as [E|E]; [|lia].
  apply Z.gcd_eq_0 in E. lia.
Qed.

Lemma lambda_multiple_l : exists k, 0 < k /\ lambda_of p q = (p - 1) * k.
Proof.
  pose proof (Z.prime_ge_2 _ Hp). pose proof (Z.prime_ge_2 _ Hq). pose proof gcd_pm1_pos.
  exists ((q - 1) / Z.gcd (p - 1) (q - 1)). split.
  - apply Z.div_str_pos. split; [lia|].
    apply Z.divide_pos_le; [lia|apply Z.gcd_divide_r].
  - unfold lambda_of. rewrite Z.quot_div_nonneg by nia.
    rewrite Z.divide_div_mul_exact by (try apply Z.gcd_divide_r; lia).
    ring.
Qed.

Lemma lambda_multiple_r : exists k, 0 < k /\ lambda_of p q = (q - 1) * k.
Proof.
  pose proof (Z.prime_ge_2 _ Hp). pose proof (Z.prime_ge_2 _ Hq). pose proof gcd_pm1_pos.
  exists ((p - 1) / Z.gcd (p - 1) (q - 1)). split.
  - apply Z.div_str_pos. split; [lia|].
    apply Z.divide_pos_le; [lia|apply Z.gcd_divide_l].
  - unfold lambda_of. rewrite Z.quot_div_nonneg by nia.
    rewrite Z.mul_comm, Z.divide_div_mul_exact by (try apply Z.gcd_divide_l; lia).
    ring.
Qed.

Lemma lambda_pos : 0 < lambda_of p q.
Proof.
  pose proof (Z.prime_ge_2 _ Hp). destruct lambda_multiple_l as [k [Hk ->]]. nia.
Qed.

Lemma primes_coprime : Z.gcd q p = 1.
Proof.
  apply Z.coprime_prime_l; [exact Hq|].
  intros D. apply (Z.divide_prime_prime_iff q p Hq Hp) in D. congruence.
Qed.

(** Fermat's little theorem lifted to [lambda]. *)
Lemma fermat_lambda (r s : Z) :
  Z.prime s -> (s | p * q) -> (exists k, 0 < k /\ lambda_of p q = (s - 1) * k) ->
  Z.gcd r (p * q) = 1 -> r ^ lambda_of p q mod s = 1.
Proof.
  intros Hs Hsn [k [Hk Hl]] Hr. pose proof (Z.prime_ge_2 _ Hs).
  assert (Hrs : r mod s <> 0).
  { intros E. apply Z.mod_divide in E; [|lia].
    assert (D : (s | 1)) by (rewrite <- Hr; apply Z.gcd_greatest; assumption).
    apply Z.divide_pos_le in D; lia. }
  rewrite Hl, Z.pow_mul_r by lia.
  rewrite <- Z.mod_pow_l, Z.fermat_nz by assumption.
  rewrite Z.pow_1_l by lia. apply Z.mod_1_l. lia.
Qed.

(** Carmichael: [r^lambda = 1 (mod n)] for [r] coprime to [n = p q]. *)
Lemma carmichael (r : Z) : Z.gcd r (p * q) = 1 -> r ^ lambda_of p q mod (p * q) = 1.
Proof.
  intros Hr. pose proof (Z.prime_ge_2 _ Hp). pose proof (Z.prime_ge_2 _ Hq).
  set (x := r ^ lambda_of p q).
  assert (Xp : x mod p = 1)
    by (apply fermat_lambda; [exact Hp|apply Z.divide_factor_l|exact lambda_multiple_l|exact Hr]).
  assert (Xq : x mod q = 1)
    by (apply fermat_lambda; [exact Hq|apply Z.divide_factor_r|exact lambda_multiple_r|exact Hr]).
  pose proof (Z.div_mod x p ltac:(lia)) as Dp.
  pose proof (Z.div_mod x q ltac:(lia)) as Dq.
  assert (Hd : (q | x / p)).
  { apply (Z.gauss q p); [|exact primes_coprime].
    exists (x / q). lia. }
  destruct Hd as [t Ht].
  replace x with (1 + t * (p * q)) by lia.
  rewrite Z.mod_add by nia. apply Z.mod_small. nia.
Qed.

(** Lifted to [n^2]: [(r^lambda)^n = 1 (mod n^2)]. *)
Lemma carmichael_sq (r : Z) :
  Z.gcd r (p * q) = 1 -> (r ^ lambda_of p q) ^ (p * q) mod (p * q * (p * q)) = 1.
Proof.
  intros Hr. pose proof (Z.prime_ge_2 _ Hp). pose proof (Z.prime_ge_2 _ Hq).
  pose proof (carmichael r Hr) as C.
  pose proof (Z.div_mod (r ^ lambda_of p q) (p * q) ltac:(nia)) as D.
  rewrite C in D. rewrite D.
  replace (p * q * (r ^ lambda_of p q / (p * q)) + 1)
    with (1 + (r ^ lambda_of p q / (p * q)) * (p * q)) by ring.
  rewrite binomial_mod by nia.
  replace (1 + p * q * (r ^ lambda_of p q / (p * q)) * (p * q))
    with (1 + (r ^ lambda_of p q / (p * q)) * (p * q * (p * q))) by ring.
  rewrite Z.mod_add by nia. apply Z.mod_small. nia.
Qed.

End KeyFacts.

Lemma keypair_of_primes_spec (p q : Z) (kp : Keypair) :
  Z.prime p -> Z.prime q -> p <> q -> keypair_of_primes p q = Some kp ->
  pk_n (publicKey kp) = p * q /\ pk_g (publicKey kp) = p * q + 1 /\
  sk_n (privateKey kp) = p * q /\ sk_lambda (privateKey kp) = lambda_of p q /\
  0 <= sk_mu (privateKey kp) < p * q /\
  (sk_mu (privateKey kp) * lambda_of p q) mod (p * q) = 1.
Proof.
  intros Hp Hq Hpq H.
  pose proof (Z.prime_ge_2 _ Hp). pose proof (Z.prime_ge_2 _ Hq).
  pose proof (lambda_pos p q Hp Hq) as Hl.
  unfold keypair_of_primes, calculateMu in H.
  destruct (Z.eqb_spec (Z.gcd (p - 1) (q - 1)) 0) as [G0|_].
  { pose proof (gcd_pm1_pos p q Hp). lia. }
  fold (lambda_of p q) in H.
  rewrite modPow_pos in H by nia.
  replace (p * q + 1) with (1 + 1 * (p * q)) in H at 1 by ring.
  rewrite binomial_mod, one_plus_mod_sq, L_one_plus in H by nia.
  unfold BigInt.modInv in H.
  destruct (Z.eqb_spec (Z.gcd (lambda_of p q * 1 mod (p * q)) (p * q)) 1) as [G|]; [|discriminate].
  pose proof (Z.mod_pos_bound (lambda_of p q * 1) (p * q) ltac:(nia)) as B.
  destruct (Z.ltb_spec (lambda_of p q * 1 mod (p * q)) 0) as [|_]; [lia|].
  injection H as <-. cbn [publicKey privateKey pk_n pk_g sk_n sk_lambda sk_mu].
  repeat split; try reflexivity.
  - unfold Z.invmod. apply Z.mod_pos_bound. nia.
  - unfold Z.invmod. apply Z.mod_pos_bound. nia.
  - rewrite <- Z.mul_mod_idemp_r by nia. rewrite <- (Z.mul_1_r (lambda_of p q)) at 2.
    apply Z.invmod_coprime; [nia|exact G].
Qed.

Lemma valid_keypair_facts (kp : Keypair) : valid_keypair kp -> key_facts kp.
Proof.
  intros (p & q & Hp & Hq & Hpq & H).
  pose proof (Z.prime_ge_2 _ Hp). pose proof (Z.prime_ge_2 _ Hq).
  destruct (keypair_of_primes_spec p q kp Hp Hq Hpq H) as (En & Eg & Esn & El & Emu & Einv).
  constructor; rewrite ?En, ?Eg, ?Esn, ?El.
  - nia.
  - reflexivity.
  - reflexivity.
  - apply lambda_pos; assumption.
  - lia.
  - exact Einv.
  - intros r Hr. apply carmichael_sq; assumption.
Qed.

(** ** Correctness of the cryptosystem for a valid key pair *)

Lemma gcd_succ_sq (n : Z) : Z.gcd (n + 1) (n * n) = 1.
Proof.
  assert (H : Z.gcd (n + 1) n = 1).
  { rewrite Z.gcd_comm. replace (n + 1) with (1 + 1 * n) by ring.
    rewrite Z.gcd_add_mult_diag_r. apply Z.gcd_1_r. }
  apply Z.coprime_mul_r; exact H.
Qed.

Section Correctness.

Variable kp : Keypair.
Hypothesis HK : key_facts kp.

Local Abbreviation n := (pk_n (publicKey kp)).

(** [g.modPow(m, n^2)] for every integer [m]. *)
Lemma g_modPow (m : Z) :
  exists gm, BigInt.modPow (pk_g (publicKey kp)) m (n * n) = Some gm /\
             0 <= gm /\ gm mod (n * n) = (1 + m * n) mod (n * n).
Proof.
  pose proof (kf_n_ge _ HK) as Hn. rewrite (kf_g _ HK).
  destruct (Z.lt_trichotomy m 0) as [Hm|[->|Hm]].
  - unfold BigInt.modPow.
    destruct (Z.eqb_spec (n * n) 0) as [|_]; [nia|].
    destruct (Z.ltb_spec m 0) as [_|]; [|lia].
    rewrite Z.rem_mod_nonneg, Z.mod_small by nia.
    unfold BigInt.modInv. rewrite gcd_succ_sq, Z.eqb_refl.
    destruct (Z.ltb_spec (n + 1) 0) as [|_]; [lia|].
    set (i := Z.invmod (n + 1) (n * n)).
    assert (Hi : 0 <= i < n * n) by (apply Z.mod_pos_bound; nia).
    assert (Hinv : (i * (n + 1)) mod (n * n) = 1)
      by (apply Z.invmod_coprime; [nia|apply gcd_succ_sq]).
    assert (Hi1 : i mod (n * n) = (1 + (-1) * n) mod (n * n)).
    { replace i with (i * (n + 1) * (1 + (-1) * n) + i * (n * n)) at 1 by ring.
      rewrite Z.mod_add, <- Z.mul_mod_idemp_l, Hinv, Z.mul_1_l by nia. reflexivity. }
    eexists. split; [reflexivity|].
    rewrite pow_rem_pos, Z.rem_mod_nonneg by (try apply Z.pow_nonneg; nia).
    split; [apply Z.mod_pos_bound; nia|].
    rewrite Z.mod_mod, <- Z.mod_pow_l, Hi1, Z.mod_pow_l, binomial_mod by nia.
    f_equal. ring.
  - exists 1. unfold BigInt.modPow.
    destruct (Z.eqb_spec (n * n) 0) as [|_]; [nia|]. cbn.
    split; [reflexivity|]. split; [lia|]. f_equal.
  - rewrite modPow_pos by nia. eexists. split; [reflexivity|].
    split; [apply Z.mod_pos_bound; nia|].
    rewrite Z.mod_mod by nia.
    replace (n + 1) with (1 + 1 * n) by ring.
    rewrite binomial_mod by nia. f_equal. ring.
Qed.

Lemma encrypt_encodes (m r : Z) :
  0 <= r -> Z.gcd r n = 1 ->
  exists c, paillierEncrypt (publicKey kp) m r = Some c /\ encodes n c m r.
Proof.
  intros Hr Hg. pose proof (kf_n_ge _ HK) as Hn.
  destruct (g_modPow m) as (gm & Egm & Hgm & Mgm).
  unfold paillierEncrypt. rewrite Egm, modPow_pos by nia.
  eexists. split; [reflexivity|].
  assert (0 <= r ^ n mod (n * n)) by (apply Z.mod_pos_bound; nia).
  rewrite Z.rem_mod_nonneg by nia.
  split; [apply Z.mod_pos_bound; nia|]. split; [|exact Hg].
  rewrite Z.mod_mod, Z.mul_mod, Mgm, Z.mod_mod, <- Z.mul_mod by nia. reflexivity.
Qed.

Lemma decrypt_encodes (c m s : Z) :
  encodes n c m s -> paillierDecrypt (privateKey kp) c = Some (m mod n).
Proof.
  intros (Hc & Mc & Hs). pose proof (kf_n_ge _ HK) as Hn.
  pose proof (kf_lambda_pos _ HK) as Hl. pose proof (kf_mu_nonneg _ HK) as Hmu.
  pose proof (kf_mu_inv _ HK) as Hinv. pose proof (kf_carmichael _ HK s Hs) as Hcar.
  set (lam := sk_lambda (privateKey kp)) in *. set (mu := sk_mu (privateKey kp)) in *.
  unfold paillierDecrypt. rewrite (kf_sk_n _ HK). fold lam mu.
  rewrite modPow_pos by nia.
  assert (E : c ^ lam mod (n * n) = 1 + ((lam * m) mod n) * n).
  { rewrite <- Z.mod_pow_l, Mc, Z.mod_pow_l, Z.pow_mul_l by nia.
    rewrite <- Z.pow_mul_r, (Z.mul_comm n lam), Z.pow_mul_r by nia.
    rewrite Z.mul_mod, Hcar, binomial_mod, Z.mul_1_r, Z.mod_mod by nia.
    replace (1 + lam * m * n) with (1 + (lam * m) * n) by ring.
    apply one_plus_mod_sq, Hn. }
  rewrite E, L_one_plus by lia.
  pose proof (Z.mod_pos_bound (lam * m) n ltac:(lia)).
  rewrite Z.rem_mod_nonneg by nia.
  rewrite Z.mul_mod_idemp_l by lia. f_equal.
  rewrite <- (Z.mul_1_r m) at 2. rewrite <- Hinv.
  rewrite Z.mul_mod_idemp_r by lia. f_equal. ring.
Qed.

Lemma add_encodes (c1 c2 a b s1 s2 : Z) :
  encodes n c1 a s1 -> encodes n c2 b s2 ->
  encodes n (paillierAdd (publicKey kp) c1 c2) (a + b) (s1 * s2).
Proof.
  intros (H1 & M1 & G1) (H2 & M2 & G2). pose proof (kf_n_ge _ HK) as Hn.
  unfold paillierAdd. rewrite Z.rem_mod_nonneg by nia.
  split; [apply Z.mod_pos_bound; nia|]. split; [|apply Z.coprime_mul_l; assumption].
  rewrite Z.mod_mod, Z.mul_mod, M1, M2, <- Z.mul_mod by nia.
  rewrite Z.pow_mul_l.
  replace ((1 + a * n) * s1 ^ n * ((1 + b * n) * s2 ^ n))
    with ((1 + (a + b) * n) * (s1 ^ n * s2 ^ n) + (a * b * (s1 ^ n * s2 ^ n)) * (n * n)) by ring.
  apply Z.mod_add. nia.
Qed.

End Correctness.

(** ** Primality certificates for the tables *)

Lemma primeb_sound (p : Z) : primeb p = true -> Z.prime p.
Proof.
  unfold primeb. intros H. apply andb_true_iff in H as [H1 H2].
  apply Z.ltb_lt in H1. rewrite forallb_forall in H2.
  split; [exact H1|]. intros d Hd D.
  assert (Hin : In d (map (fun i => 2 + Z.of_nat i) (seq 0 (Z.to_nat (p - 2))))).
  { apply in_map_iff. exists (Z.to_nat (d - 2)). split; [lia|].
    apply in_seq. lia. }
  specialize (H2 d Hin). apply negb_true_iff, Z.eqb_neq in H2.
  apply H2, Z.mod_divide; [lia|exact D].
Qed.

Lemma valid_of_primeb (p q : Z) (kp : Keypair) :
  primeb p = true -> primeb q = true -> (p =? q) = false ->
  keypair_of_primes p q = Some kp -> valid_keypair kp.
Proof.
  intros Hp Hq Hpq H. exists p, q.
  split; [apply primeb_sound, Hp|]. split; [apply primeb_sound, Hq|].
  split; [apply Z.eqb_neq, Hpq|exact H].
Qed.

Lemma paillier_default_keys_eq : paillierEncryption false = Some paillier_default_keys.
Proof. vm_compute. reflexivity. Qed.

Lemma paillier_default_keys_valid : valid_keypair paillier_default_keys.
Proof.
  apply (valid_of_primeb 1009 1013); vm_compute; reflexivity.
Qed.

(** Encryption followed by decryption, for a valid key. *)
Lemma encrypt_decrypt_mod (kp : Keypair) (m r c : Z) :
  key_facts kp -> 0 <= r -> Z.gcd r (pk_n (publicKey kp)) = 1 ->
  paillierEncrypt (publicKey kp) m r = Some c ->
  encodes (pk_n (publicKey kp)) c m r.
Proof.
  intros HK Hr Hg E.
  destruct (encrypt_encodes kp HK m r Hr Hg) as (c' & E' & H').
  rewrite E in E'. injection E' as <-. exact H'.
Qed.

(** ** C1: homomorphic addition *)

(** Claim C1.  For every key pair generated from two distinct primes,
    every [a], [b] and all random values [r1], [r2] the encryption loop
    accepts, decrypting [add(encrypt(a), encrypt(b))] gives
    [(a + b) mod n]; with the default primes 1009 and 1013
    ([n = 1022117]) the sum of encryptions of 1500 and 2500 decrypts to 4000. *)
Theorem paillier_homomorphic_add :
  (forall kp a b r1 r2 c1 c2,
     valid_keypair kp ->
     0 < r1 -> Z.gcd r1 (pk_n (publicKey kp)) = 1 ->
     0 < r2 -> Z.gcd r2 (pk_n (publicKey kp)) = 1 ->
     paillierEncrypt (publicKey kp) a r1 = Some c1 ->
     paillierEncrypt (publicKey kp) b r2 = Some c2 ->
     paillierDecrypt (privateKey kp) (paillierAdd (publicKey kp) c1 c2)
       = Some ((a + b) mod pk_n (publicKey kp))) /\
  (exists kp, paillierEncryption false = Some kp /\ pk_n (publicKey kp) = 1022117 /\
     forall r1 r2, 0 < r1 -> Z.gcd r1 1022117 = 1 -> 0 < r2 -> Z.gcd r2 1022117 = 1 ->
       exists c1 c2,
         paillierEncrypt (publicKey kp) 1500 r1 = Some c1 /\
         paillierEncrypt (publicKey kp) 2500 r2 = Some c2 /\
         paillierDecrypt (privateKey kp) (paillierAdd (publicKey kp) c1 c2) = Some 4000).
Proof.
  assert (G : forall kp a b r1 r2 c1 c2,
     valid_keypair kp ->
     0 < r1 -> Z.gcd r1 (pk_n (publicKey kp)) = 1 ->
     0 < r2 -> Z.gcd r2 (pk_n (publicKey kp)) = 1 ->
     paillierEncrypt (publicKey kp) a r1 = Some c1 ->
     paillierEncrypt (publicKey kp) b r2 = Some c2 ->
     paillierDecrypt (privateKey kp) (paillierAdd (publicKey kp) c1 c2)
       = Some ((a + b) mod pk_n (publicKey kp))).
  { intros kp a b r1 r2 c1 c2 HV Hr1 Hg1 Hr2 Hg2 E1 E2.
    pose proof (valid_keypair_facts kp HV) as HK.
    apply (decrypt_encodes kp HK _ _ (r1 * r2)), (add_encodes kp HK);
      eapply encrypt_decrypt_mod; eauto; lia. }
  split; [exact G|].
  exists paillier_default_keys. split; [exact paillier_default_keys_eq|]. split; [reflexivity|].
  intros r1 r2 Hr1 Hg1 Hr2 Hg2.
  pose proof (valid_keypair_facts _ paillier_default_keys_valid) as HK.
  destruct (encrypt_encodes _ HK 1500 r1 ltac:(lia) Hg1) as (c1 & E1 & _).
  destruct (encrypt_encodes _ HK 2500 r2 ltac:(lia) Hg2) as (c2 & E2 & _).
  exists c1, c2. split; [exact E1|]. split; [exact E2|].
  rewrite (G _ 1500 2500 r1 r2 c1 c2 paillier_default_keys_valid Hr1 Hg1 Hr2 Hg2 E1 E2).
  reflexivity.
Qed.

Lemma paillier_homomorphic_add_witness :
  paillierDecrypt (privateKey paillier_default_keys)
    (paillierAdd (publicKey paillier_default_keys) 440693833735 780776347594)
  = Some ((1500 + 2500) mod pk_n (publicKey paillier_default_keys)).
Proof.
  apply (proj1 paillier_homomorphic_add paillier_default_keys 1500 2500 2 3).
  - exact paillier_default_keys_valid.
  - lia.
  - vm_compute. reflexivity.
  - lia.
  - vm_compute. reflexivity.
  - vm_compute. reflexivity.
  - vm_compute. reflexivity.
Defined.

(** ** C2: decryption inverts encryption *)

(** Claim C2.  For every key pair generated from two distinct primes,
    every plaintext [m] in [[0, n)] and every random [r] the encryption
    loop accepts, decrypting the encryption of [m] returns [m]. *)
Theorem paillier_roundtrip (kp : Keypair) (m r : Z) :
  valid_keypair kp -> 0 <= m < pk_n (publicKey kp) ->
  0 < r -> Z.gcd r (pk_n (publicKey kp)) = 1 ->
  exists c, paillierEncrypt (publicKey kp) m r = Some c /\
            paillierDecrypt (privateKey kp) c = Some m.
Proof.
  intros HV Hm Hr Hg. pose proof (valid_keypair_facts kp HV) as HK.
  destruct (encrypt_encodes kp HK m r ltac:(lia) Hg) as (c & E & H).
  exists c. split; [exact E|].
  rewrite (decrypt_encodes kp HK c m r H), Z.mod_small by exact Hm. reflexivity.
Qed.

Lemma paillier_roundtrip_witness :
  exists c, paillierEncrypt (publicKey paillier_default_keys) 12345 7 = Some c /\
            paillierDecrypt (privateKey paillier_default_keys) c = Some 12345.
Proof.
  apply paillier_roundtrip.
  - exact paillier_default_keys_valid.
  - unfold paillier_default_keys; simpl; lia.
  - lia.
  - vm_compute. reflexivity.
Defined.

(** ** C7: key generation *)

Lemma keypair_of_primes_shape (p q : Z) (kp : Keypair) :
  keypair_of_primes p q = Some kp ->
  pk_n (publicKey kp) = p * q /\ pk_g (publicKey kp) = p * q + 1 /\
  sk_n (privateKey kp) = p * q /\
  sk_lambda (privateKey kp) = Z.quot ((p - 1) * (q - 1)) (Z.gcd (p - 1) (q - 1)) /\
  calculateMu (p * q + 1) (sk_lambda (privateKey kp)) (p * q) = Some (sk_mu (privateKey kp)).
Proof.
  unfold keypair_of_primes. destruct (Z.gcd (p - 1) (q - 1) =? 0); [discriminate|].
  destruct calculateMu as [mu|] eqn:E; [|discriminate].
  intros H. injection H as <-. cbn. repeat split; assumption.
Qed.

Lemma table_pair_keys (p q : Z) :
  primeb p = true -> primeb q = true -> (p =? q) = false -> keypair_of_primes p q <> None ->
  Z.prime p /\ Z.prime q /\ p <> q /\
  exists kp, keypair_of_primes p q = Some kp /\
    pk_n (publicKey kp) = p * q /\ pk_g (publicKey kp) = p * q + 1 /\
    sk_n (privateKey kp) = p * q /\
    sk_lambda (privateKey kp) = (p - 1) * (q - 1) / Z.gcd (p - 1) (q - 1) /\
    0 <= sk_mu (privateKey kp) < p * q /\
    (sk_mu (privateKey kp) * sk_lambda (privateKey kp)) mod (p * q) = 1.
Proof.
  intros Hp Hq Hpq Hs. apply primeb_sound in Hp, Hq. apply Z.eqb_neq in Hpq.
  pose proof (Z.prime_ge_2 _ Hp). pose proof (Z.prime_ge_2 _ Hq).
  pose proof (gcd_pm1_pos p q Hp).
  split; [exact Hp|]. split; [exact Hq|]. split; [exact Hpq|].
  destruct (keypair_of_primes p q) as [kp|] eqn:E; [|congruence].
  destruct (keypair_of_primes_spec p q kp Hp Hq Hpq E) as (K1 & K2 & K3 & K4 & K5 & K6).
  exists kp. split; [reflexivity|].
  rewrite K4. split; [exact K1|]. split; [exact K2|]. split; [exact K3|].
  split; [|split; [exact K5|exact K6]].
  unfold lambda_of. apply Z.quot_div_nonneg; nia.
Qed.

(** Claim C7 (as amended).  [generateCompanyKeypair] throws for an
    index beyond the generator's table of prime pairs.  For the pair
    [(p, q)] at the index it has no primality or distinctness check: it
    returns a key pair exactly when [gcd(p-1, q-1)] is not zero and
    [calculateMu] finds the inverse of [L(g^lambda mod n^2)] modulo [n],
    and the key pair it returns is [n = p q], [g = n + 1],
    [lambda = (p-1)(q-1)/gcd(p-1,q-1)] and that inverse [mu].  The eight
    pairs the constructor puts in the table are distinct primes, and
    their keys satisfy [mu lambda = 1 mod n]. *)
Theorem generateCompanyKeypair_spec :
  (forall primePairs i, (List.length primePairs <= i)%nat ->
     generateKeypairFrom primePairs i = None) /\
  (forall primePairs i p q, nth_error primePairs i = Some (p, q) ->
     (generateKeypairFrom primePairs i <> None <->
      Z.gcd (p - 1) (q - 1) <> 0 /\
      calculateMu (p * q + 1) (Z.quot ((p - 1) * (q - 1)) (Z.gcd (p - 1) (q - 1))) (p * q)
        <> None) /\
     (forall kp, generateKeypairFrom primePairs i = Some kp ->
        pk_n (publicKey kp) = p * q /\ pk_g (publicKey kp) = p * q + 1 /\
        sk_n (privateKey kp) = p * q /\
        sk_lambda (privateKey kp) = Z.quot ((p - 1) * (q - 1)) (Z.gcd (p - 1) (q - 1)) /\
        calculateMu (p * q + 1) (sk_lambda (privateKey kp)) (p * q)
          = Some (sk_mu (privateKey kp)))) /\
  (forall i p q, nth_error companyPrimePairs i = Some (p, q) ->
     Z.prime p /\ Z.prime q /\ p <> q /\
     exists kp, generateCompanyKeypair i = Some kp /\
       pk_n (publicKey kp) = p * q /\ pk_g (publicKey kp) = p * q + 1 /\
       sk_n (privateKey kp) = p * q /\
       sk_lambda (privateKey kp) = (p - 1) * (q - 1) / Z.gcd (p - 1) (q - 1) /\
       0 <= sk_mu (privateKey kp) < p * q /\
       (sk_mu (privateKey kp) * sk_lambda (privateKey kp)) mod (p * q) = 1).
Proof.
  split; [|split].
  - intros primePairs i Hi. unfold generateKeypairFrom.
    rewrite (proj2 (nth_error_None primePairs i) Hi). reflexivity.
  - intros primePairs i p q H. unfold generateKeypairFrom. rewrite H. split.
    + unfold keypair_of_primes. cbv zeta.
      destruct (Z.eqb_spec (Z.gcd (p - 1) (q - 1)) 0) as [G|G].
      * split; [intros N; exfalso; apply N; reflexivity|intros [N _]; contradiction].
      * destruct (calculateMu _ _ _) as [mu|].
        -- split; [intros _; split; [exact G|discriminate]|intros _; discriminate].
        -- split; [intros N; exfalso; apply N; reflexivity|intros [_ N]; exfalso; apply N; reflexivity].
    + exact (keypair_of_primes_shape p q).
  - intros i p q H. unfold generateCompanyKeypair, generateKeypairFrom. rewrite H.
    unfold companyPrimePairs in H.
    do 8 (destruct i as [|i];
          [cbn in H; injection H as <- <-;
           apply table_pair_keys; vm_compute; first [reflexivity | discriminate] |]).
    destruct i; discriminate H.
Qed.

(** Claim C7 fails: a generator whose [companyPrimePairs] field holds
    [[1009, 1009]] or [[1009, 1003]] ([1003 = 17 * 59]) returns a key pair
    for index 0, and one whose field holds the distinct primes [[3, 7]]
    throws for index 0 (the inverse does not exist), with no
    [InvalidModulusError] in any case. *)
Lemma keygen_without_modulus_check :
  (exists kp, generateKeypairFrom [(1009, 1009)] 0 = Some kp) /\
  (exists kp, generateKeypairFrom [(1009, 1003)] 0 = Some kp) /\ ~ Z.prime 1003 /\
  Z.prime 3 /\ Z.prime 7 /\ generateKeypairFrom [(3, 7)] 0 = None.
Proof.
  split; [eexists; vm_compute; reflexivity|].
  split; [eexists; vm_compute; reflexivity|].
  split; [intros [_ H]; apply (H 17); [lia|exists 59; reflexivity]|].
  split; [apply primeb_sound; vm_compute; reflexivity|].
  split; [apply primeb_sound; vm_compute; reflexivity|].
  vm_compute. reflexivity.
Qed.

(** ** C8: the coprime retry loop *)

Lemma retry_first_coprime (n : Z) (draws : nat -> Z) (i : nat) (r : Z) :
  retry n draws i r <-> exists k, first_coprime_from n draws i k /\ draws k = r.
Proof.
  split.
  - induction 1 as [i Hg | i r Hg _ IH].
    + exists i. split; [|reflexivity]. split; [lia|]. split; [exact Hg|]. intros j Hj; lia.
    + destruct IH as (k & (Hk & Hgk & Hbefore) & <-). exists k. split; [|reflexivity].
      split; [lia|]. split; [exact Hgk|].
      intros j Hj. destruct (Nat.eq_dec j i) as [->|]; [exact Hg|]. apply Hbefore; lia.
  - intros (k & (Hk & Hgk & Hbefore) & <-).
    remember (k - i)%nat as d eqn:Ed. revert i Hk Hbefore Ed.
    induction d as [|d IH]; intros i Hk Hbefore Ed.
    + replace k with i by lia. apply retry_accept. replace i with k by lia. exact Hgk.
    + apply retry_again; [apply Hbefore; lia|].
      apply IH; [lia| |lia]. intros j Hj. apply Hbefore; lia.
Qed.

Lemma retry_none (n : Z) (draws : nat -> Z) (i : nat) (r : Z) :
  (forall k, Z.gcd (draws k) n <> 1) -> ~ retry n draws i r.
Proof.
  intros Hall H. apply retry_first_coprime in H as (k & (_ & Hg & _) & _). exact (Hall k Hg).
Qed.

(** Claim C8 (as amended).  The loop that draws [r] until it is coprime
    to [n] has no bound and no exhaustion error: it stops at the first
    coprime draw, however many draws come before it, and the encryption
    then ends exactly as [paillierEncrypt] does on that draw; when no draw
    is coprime, the encryption has no outcome at all, neither a result nor
    an exception. *)
Theorem encrypt_retry_unbounded :
  (forall pub m draws o,
     encrypt_run pub m draws o <->
     exists k, first_coprime_from (pk_n pub) draws 0 k /\
       o = match paillierEncrypt pub m (draws k) with
           | Some c => Returns c
           | None => Raises "modPow"
           end) /\
  (forall pub m draws,
     (forall k, Z.gcd (draws k) (pk_n pub) <> 1) -> forall o, ~ encrypt_run pub m draws o).
Proof.
  split.
  - intros pub m draws o. split.
    + intros [r c Hr He | r Hr He]; apply retry_first_coprime in Hr as (k & Hk & <-);
        exists k; split; try exact Hk; rewrite He; reflexivity.
    + intros (k & Hk & ->).
      assert (Hr : retry (pk_n pub) draws 0 (draws k))
        by (apply retry_first_coprime; exists k; split; [exact Hk|reflexivity]).
      destruct (paillierEncrypt pub m (draws k)) as [c|] eqn:E.
      * exact (encrypt_ok pub m draws (draws k) c Hr E).
      * exact (encrypt_throws pub m draws (draws k) Hr E).
  - intros pub m draws Hall o H.
    destruct H as [r c Hr _ | r Hr _]; exact (retry_none _ _ _ _ Hall Hr).
Qed.

(** Claim C8 fails: under the default key ([n = 1009 * 1013]) a random
    source that keeps yielding [1009] makes the encryption of [1500]
    loop forever: no result and no exception. *)
Lemma encrypt_retry_never_ends :
  Z.gcd 1009 (pk_n (publicKey paillier_default_keys)) = 1009 /\
  ~ (exists o, encrypt_run (publicKey paillier_default_keys) 1500 (fun _ => 1009) o).
Proof.
  split; [vm_compute; reflexivity|].
  intros (o & H).
  destruct H as [r c Hr _ | r Hr _];
    refine (retry_none _ _ _ _ _ Hr); intros k; vm_compute; discriminate.
Qed.

Lemma generateCompanyKeypair_spec_witness :
  ((List.length companyPrimePairs <= 9)%nat /\ generateKeypairFrom companyPrimePairs 9 = None) /\
  (nth_error [(1009, 1009)] 0 = Some (1009, 1009) /\
   exists kp, generateKeypairFrom [(1009, 1009)] 0 = Some kp /\
     pk_n (publicKey kp) = 1009 * 1009) /\
  (nth_error companyPrimePairs 1 = Some (1019, 1021) /\
   exists kp, generateCompanyKeypair 1 = Some kp /\ pk_n (publicKey kp) = 1019 * 1021).
Proof.
  destruct generateCompanyKeypair_spec as (S1 & S2 & S3).
  split; [split; [cbn; lia | apply S1; cbn; lia]|].
  split.
  - split; [reflexivity|].
    destruct (S2 [(1009, 1009)] 0%nat 1009 1009 eq_refl) as (Hiff & Hshape).
    destruct (generateKeypairFrom [(1009, 1009)] 0) as [kp|] eqn:E.
    + exists kp. split; [reflexivity|]. exact (proj1 (Hshape kp eq_refl)).
    + exfalso. apply (proj2 Hiff); [split; vm_compute; discriminate|reflexivity].
  - split; [reflexivity|].
    destruct (S3 1%nat 1019 1021 eq_refl) as (_ & _ & _ & kp & E & N & _).
    exists kp. split; [exact E | exact N].
Defined.

Lemma encrypt_retry_unbounded_witness :
  (forall k, Z.gcd ((fun _ : nat => 2) k) (pk_n (publicKey paillier_default_keys)) = 1) /\
  encrypt_run (publicKey paillier_default_keys) 1500 (fun _ => 2)
    (match paillierEncrypt (publicKey paillier_default_keys) 1500 2 with
     | Some c => Returns c | None => Raises "modPow" end) /\
  (forall k, Z.gcd ((fun _ : nat => 1009) k) (pk_n (publicKey paillier_default_keys)) <> 1) /\
  ~ encrypt_run (publicKey paillier_default_keys) 1500 (fun _ => 1009) (Returns 0).
Proof.
  split; [intros k; vm_compute; reflexivity|].
  split.
  - apply (proj1 encrypt_retry_unbounded). exists 0%nat. split; [|reflexivity].
    split; [lia|]. split; [vm_compute; reflexivity|]. intros j Hj; lia.
  - split; [intros k; vm_compute; discriminate|].
    apply (proj2 encrypt_retry_unbounded). intros k; vm_compute; discriminate.
Defined.

(** ** Encryption of amounts by a party's key *)

Lemma one_plus_mod_n (m n : Z) :
  0 < n -> (1 + (m mod n) * n) mod (n * n) = (1 + m * n) mod (n * n).
Proof.
  intros Hn. rewrite (Z.div_mod m n) at 2 by lia.
  replace (1 + (n * (m / n) + m mod n) * n) with (1 + (m mod n) * n + (m / n) * (n * n)) by ring.
  rewrite Z.mod_add by nia. reflexivity.
Qed.

(** With [r >= 0], the ciphertext only depends on [m mod n]. *)
Lemma encrypt_plaintext_mod (kp : Keypair) (m r : Z) :
  key_facts kp -> 0 <= r ->
  paillierEncrypt (publicKey kp) m r =
  paillierEncrypt (publicKey kp) (m mod pk_n (publicKey kp)) r.
Proof.
  intros HK Hr. pose proof (kf_n_ge _ HK) as Hn.
  destruct (g_modPow kp HK m) as (g1 & E1 & P1 & M1).
  destruct (g_modPow kp HK (m mod pk_n (publicKey kp))) as (g2 & E2 & P2 & M2).
  unfold paillierEncrypt. cbv zeta. rewrite E1, E2, modPow_pos by nia.
  set (n := pk_n (publicKey kp)) in *.
  assert (0 <= r ^ n mod (n * n)) by (apply Z.mod_pos_bound; nia).
  rewrite !Z.rem_mod_nonneg by nia. f_equal.
  rewrite Z.mul_mod, M1, <- one_plus_mod_n, <- M2, <- Z.mul_mod by nia. reflexivity.
Qed.

(** An accepted draw yields a ciphertext, equal to the encryption of the
    reduced plaintext, and decrypting to it. *)
Lemma party_encrypt (kp : Keypair) (m r : Z) :
  key_facts kp -> accepted (pk_n (publicKey kp)) r ->
  exists c, paillierEncrypt (publicKey kp) m r = Some c /\
    paillierEncrypt (publicKey kp) (m mod pk_n (publicKey kp)) r = Some c /\
    encodes (pk_n (publicKey kp)) c m r /\
    paillierDecrypt (privateKey kp) c = Some (m mod pk_n (publicKey kp)).
Proof.
  intros HK (Hr & Hg).
  destruct (encrypt_encodes kp HK m r ltac:(lia) Hg) as (c & E & Enc).
  exists c. split; [exact E|]. split; [rewrite <- encrypt_plaintext_mod by (auto; lia); exact E|].
  split; [exact Enc|]. exact (decrypt_encodes kp HK c m r Enc).
Qed.

(** An encoded ciphertext is a unit modulo [n^2], hence never 0. *)
Lemma encodes_nonzero (n c m s : Z) : 2 <= n -> encodes n c m s -> c <> 0.
Proof.
  intros Hn (_ & Mc & Hs) ->. rewrite Z.mod_0_l in Mc by nia.
  symmetry in Mc. apply Z.mod_divide in Mc; [|nia].
  assert (D : (n | (1 + m * n) * s ^ n)).
  { destruct Mc as [k Hk]. exists (k * n). rewrite Hk. ring. }
  assert (G1 : Z.gcd n (1 + m * n) = 1).
  { rewrite Z.gcd_add_mult_diag_r. apply Z.gcd_1_r. }
  assert (G2 : Z.gcd n (s ^ n) = 1).
  { apply Z.coprime_pow_r; [lia|]. unfold Z.coprime. rewrite Z.gcd_comm. exact Hs. }
  apply Z.gauss in D; [|exact G1].
  assert (D1 : (n | 1)).
  { apply Z.gauss with (s ^ n); [rewrite Z.mul_1_r; exact D | exact G2]. }
  apply Z.divide_1_r_nonneg in D1; lia.
Qed.

Lemma dualEncryptAmount_spec (lookup : Registry) (amt : Q) (sid rid : string) (rs rr : Z)
    (s r : Company) :
  registry_valid lookup -> lookup sid = Some s -> lookup rid = Some r ->
  accepted (pk_n (publicKey (c_keys s))) rs -> accepted (pk_n (publicKey (c_keys r))) rr ->
  exists d, dualEncryptAmount lookup amt sid rid rs rr = Some d /\
    amountInCents d = mathRound (amt * 100)%Q /\
    senderPaillierN d = pk_n (publicKey (c_keys s)) /\
    recipientPaillierN d = pk_n (publicKey (c_keys r)) /\
    paillierEncrypt (publicKey (c_keys s)) (amountInCents d mod pk_n (publicKey (c_keys s))) rs
      = Some (senderEncrypted d) /\
    paillierEncrypt (publicKey (c_keys r)) (amountInCents d mod pk_n (publicKey (c_keys r))) rr
      = Some (recipientEncrypted d) /\
    encodes (pk_n (publicKey (c_keys s))) (senderEncrypted d) (amountInCents d) rs /\
    encodes (pk_n (publicKey (c_keys r))) (recipientEncrypted d) (amountInCents d) rr /\
    paillierDecrypt (privateKey (c_keys s)) (senderEncrypted d)
      = Some (amountInCents d mod pk_n (publicKey (c_keys s))) /\
    paillierDecrypt (privateKey (c_keys r)) (recipientEncrypted d)
      = Some (amountInCents d mod pk_n (publicKey (c_keys r))).
Proof.
  intros HV Hs Hr As Ar.
  pose proof (valid_keypair_facts _ (HV _ _ Hs)) as Ks.
  pose proof (valid_keypair_facts _ (HV _ _ Hr)) as Kr.
  set (cents := mathRound (amt * 100)%Q).
  destruct (party_encrypt _ cents rs Ks As) as (cs & Es & Es' & Ns & Ds).
  destruct (party_encrypt _ cents rr Kr Ar) as (cr & Er & Er' & Nr & Dr).
  unfold dualEncryptAmount. rewrite Hs, Hr. fold cents. rewrite Es, Er.
  eexists. split; [reflexivity|].
  cbn [amountInCents senderPaillierN recipientPaillierN senderEncrypted recipientEncrypted].
  repeat (split; [first [reflexivity | assumption]|]). assumption.
Qed.

Lemma dual_encrypted_facts (lookup : Registry) (tx : Tx) :
  registry_valid lookup -> dual_encrypted lookup tx ->
  exists s r, lookup (sender_id tx) = Some s /\ lookup (recipient_id tx) = Some r /\
    (exists rs, encodes (pk_n (publicKey (c_keys s))) (he_sender tx)
                  (mathRound (amount tx * 100)%Q) rs) /\
    (exists rr, encodes (pk_n (publicKey (c_keys r))) (he_recipient tx)
                  (mathRound (amount tx * 100)%Q) rr) /\
    paillierDecrypt (privateKey (c_keys s)) (he_sender tx)
      = Some (mathRound (amount tx * 100)%Q mod pk_n (publicKey (c_keys s))) /\
    paillierDecrypt (privateKey (c_keys r)) (he_recipient tx)
      = Some (mathRound (amount tx * 100)%Q mod pk_n (publicKey (c_keys r))).
Proof.
  intros HV (s & r & rs & rr & d & Hs & Hr & As & Ar & E & Hes & Her).
  destruct (dualEncryptAmount_spec lookup (amount tx) _ _ rs rr s r HV Hs Hr As Ar)
    as (d' & E' & C & _ & _ & _ & _ & Ns & Nr & Ds & Dr).
  rewrite E in E'. injection E' as <-. rewrite C in *.
  exists s, r. rewrite Hes, Her.
  repeat split; try assumption; eexists; eassumption.
Qed.

(** ** C6: dual encryption of an amount *)

(** Claim C6.  For registered sender and recipient and draws accepted by
    the two retry loops, [dualEncryptAmount] succeeds with
    [amountInCents = Math.round(amount * 100)]; each party's ciphertext
    is the encryption under that party's public key of [amountInCents]
    reduced modulo that party's [n] (the reduction is performed by the
    exponentiation of [g = n + 1]), and decrypting it with that party's
    private key gives [amountInCents mod n_party]. *)
Theorem dualEncryptAmount_reduces_per_party (lookup : Registry) (amt : Q) (sid rid : string)
    (rs rr : Z) (s r : Company) :
  registry_valid lookup -> lookup sid = Some s -> lookup rid = Some r ->
  accepted (pk_n (publicKey (c_keys s))) rs -> accepted (pk_n (publicKey (c_keys r))) rr ->
  exists d, dualEncryptAmount lookup amt sid rid rs rr = Some d /\
    amountInCents d = mathRound (amt * 100)%Q /\
    paillierEncrypt (publicKey (c_keys s)) (amountInCents d mod pk_n (publicKey (c_keys s))) rs
      = Some (senderEncrypted d) /\
    paillierEncrypt (publicKey (c_keys r)) (amountInCents d mod pk_n (publicKey (c_keys r))) rr
      = Some (recipientEncrypted d) /\
    paillierDecrypt (privateKey (c_keys s)) (senderEncrypted d)
      = Some (amountInCents d mod pk_n (publicKey (c_keys s))) /\
    paillierDecrypt (privateKey (c_keys r)) (recipientEncrypted d)
      = Some (amountInCents d mod pk_n (publicKey (c_keys r))).
Proof.
  intros HV Hs Hr As Ar.
  destruct (dualEncryptAmount_spec lookup amt sid rid rs rr s r HV Hs Hr As Ar)
    as (d & E & C & _ & _ & Es & Er & _ & _ & Ds & Dr).
  exists d. repeat split; assumption.
Qed.

(** ** The company lookup map *)

Lemma fold_lookup_in (companies : list Company) : forall (m : Registry) k c,
  fold_left (fun m c => map_set (map_set m (c_id c) c) (c_name c) c) companies m k = Some c ->
  m k = Some c \/ In c companies.
Proof.
  induction companies as [|c0 cs IH]; intros m k c H; [left; exact H|].
  cbn in H. apply IH in H as [H|H]; [|right; right; exact H].
  unfold map_set in H.
  destruct (String.eqb k (c_name c0)); [injection H as <-; right; left; reflexivity|].
  destruct (String.eqb k (c_id c0)); [injection H as <-; right; left; reflexivity|].
  left. exact H.
Qed.

Lemma buildCompanyLookup_in (companies : list Company) (k : string) (c : Company) :
  buildCompanyLookup companies k = Some c -> In c companies.
Proof.
  intros H. apply fold_lookup_in in H as [H|H]; [discriminate|exact H].
Qed.

Lemma registry_valid_build (companies : list Company) :
  Forall (fun c => valid_keypair (c_keys c)) companies ->
  registry_valid (buildCompanyLookup companies).
Proof.
  intros HF k c H. apply buildCompanyLookup_in in H.
  rewrite Forall_forall in HF. exact (HF c H).
Qed.

Lemma demo_companies_valid : Forall (fun c => valid_keypair (c_keys c)) demo_companies.
Proof.
  unfold demo_companies.
  destruct (generateCompanyKeypair 0) as [k0|] eqn:E0; [|constructor].
  destruct (generateCompanyKeypair 1) as [k1|] eqn:E1; [|constructor].
  destruct (generateCompanyKeypair 2) as [k2|] eqn:E2; [|constructor].
  change (keypair_of_primes 1009 1013 = Some k0) in E0.
  change (keypair_of_primes 1019 1021 = Some k1) in E1.
  change (keypair_of_primes 1031 1033 = Some k2) in E2.
  constructor; [|constructor; [|constructor; [|constructor]]]; cbn.
  - apply (valid_of_primeb 1009 1013); [vm_compute; reflexivity..|exact E0].
  - apply (valid_of_primeb 1019 1021); [vm_compute; reflexivity..|exact E1].
  - apply (valid_of_primeb 1031 1033); [vm_compute; reflexivity..|exact E2].
Qed.

Lemma demo_lookup_valid : registry_valid demo_lookup.
Proof. apply registry_valid_build, demo_companies_valid. Qed.

Lemma dualEncryptAmount_reduces_per_party_witness :
  exists d, dualEncryptAmount demo_lookup 20000 "TC001" "GM002" 2 3 = Some d /\
    amountInCents d = 2000000 /\
    paillierDecrypt (privateKey (paillier_default_keys)) (senderEncrypted d)
      = Some (2000000 mod 1022117).
Proof.
  destruct (demo_lookup "TC001"%string) as [s|] eqn:Hs; [|vm_compute in Hs; discriminate].
  destruct (demo_lookup "GM002"%string) as [r|] eqn:Hr; [|vm_compute in Hr; discriminate].
  assert (Es : s = {| c_id := "TC001"; c_name := "TechCorp Solutions";
                      c_keys := paillier_default_keys |}).
  { vm_compute in Hs. injection Hs as <-. reflexivity. }
  subst s.
  destruct (dualEncryptAmount_reduces_per_party demo_lookup 20000 "TC001" "GM002" 2 3 _ r
              demo_lookup_valid Hs Hr)
    as (d & E & C & _ & _ & Ds & _).
  - split; [cbn; lia | vm_compute; reflexivity].
  - vm_compute in Hr. injection Hr as <-. split; [cbn; lia | vm_compute; reflexivity].
  - exists d. split; [exact E|]. split; [rewrite C; vm_compute; reflexivity|].
    cbn [c_keys] in Ds. rewrite Ds, C. reflexivity.
Defined.

(** ** Rounding to cents *)

Lemma Qltb_true (x y : Q) : Qltb x y = true <-> (x < y)%Q.
Proof.
  unfold Qltb. rewrite negb_true_iff. split.
  - intros H. apply Qnot_le_lt. intros H'. apply Qle_bool_iff in H'. congruence.
  - intros H. destruct (Qle_bool y x) eqn:E; [|reflexivity].
    apply Qle_bool_iff in E. exfalso. apply (Qlt_not_le x y H E).
Qed.

(** [Math.round(amount * 100) / 100] is within half a cent of [amount]. *)
Lemma mathRound_close (a : Q) :
  (Qabs (inject_Z (mathRound (a * 100)) / 100 - a) < 1 # 100)%Q.
Proof.
  unfold mathRound.
  pose proof (Qfloor_le (a * 100 + (1 # 2))) as H1.
  pose proof (Qlt_floor (a * 100 + (1 # 2))) as H2.
  rewrite inject_Z_plus in H2.
  set (k := inject_Z (Qfloor (a * 100 + (1 # 2)))) in *.
  apply Qabs_Qlt_condition.
  setoid_replace (k / 100)%Q with (k * (1 # 100))%Q by reflexivity.
  change (inject_Z 1) with 1%Q in H2.
  split; lra.
Qed.

(** ** Verification from a party's point of view *)

Lemma verify_party_result (lookup : Registry) (tx : Tx) (cid : string) :
  registry_valid lookup -> dual_encrypted lookup tx ->
  cid = sender_id tx \/ cid = recipient_id tx ->
  exists company, lookup cid = Some company /\
    verifyDualEncryption lookup tx cid =
      Some (let dc := mathRound (amount tx * 100)%Q mod pk_n (publicKey (c_keys company)) in
            {| v_companyId := cid;
               v_role := Some (if String.eqb (sender_id tx) cid then RoleSender else RoleRecipient);
               canDecrypt := true;
               verified := Qltb (Qabs (inject_Z dc / 100 - amount tx)%Q) (1 # 100);
               decryptedCents := Some dc;
               decryptedAmount := Some (inject_Z dc / 100)%Q |}).
Proof.
  intros HV HD Hc.
  destruct (dual_encrypted_facts lookup tx HV HD) as (s & r & Hs & Hr & _ & _ & Ds & Dr).
  unfold verifyDualEncryption.
  destruct (String.eqb (sender_id tx) cid) eqn:Es.
  - apply String.eqb_eq in Es. subst cid. exists s. rewrite Hs, Ds.
    split; reflexivity.
  - assert (cid = recipient_id tx) as ->.
    { destruct Hc as [->|H]; [rewrite String.eqb_refl in Es; discriminate|exact H]. }
    exists r. rewrite Hr, String.eqb_refl, Dr. split; reflexivity.
Qed.

(** A cent value that [mod n] moves lies at least [n >= 2] cents away, so
    it is no longer within a cent of the amount. *)
Lemma wrap_not_close (c n : Z) (a : Q) :
  2 <= n -> (Qabs (inject_Z c / 100 - a) < 1 # 100)%Q -> ~ (0 <= c < n) ->
  ~ (Qabs (inject_Z (c mod n) / 100 - a) < 1 # 100)%Q.
Proof.
  intros Hn Hc Hb Hd.
  assert (K : c mod n - c <= -2 \/ 2 <= c mod n - c).
  { pose proof (Z.mod_pos_bound c n ltac:(lia)) as Hm.
    pose proof (Z.div_mod c n ltac:(lia)) as Hdm.
    destruct (Z.lt_trichotomy (c / n) 0) as [H|[H|H]].
    - right. nia.
    - exfalso. apply Hb. rewrite H, Z.mul_0_r, Z.add_0_l in Hdm. lia.
    - left. nia. }
  apply Qabs_Qlt_condition in Hc, Hd.
  setoid_replace (inject_Z c / 100)%Q with (inject_Z c * (1 # 100))%Q in Hc by reflexivity.
  setoid_replace (inject_Z (c mod n) / 100)%Q with (inject_Z (c mod n) * (1 # 100))%Q
    in Hd by reflexivity.
  destruct K as [K|K].
  - assert (K' : (inject_Z (c mod n) <= inject_Z c + inject_Z (-2))%Q)
      by (rewrite <- inject_Z_plus, <- Zle_Qle; lia).
    change (inject_Z (-2)) with (-2 # 1)%Q in K'. lra.
  - assert (K' : (inject_Z c + inject_Z 2 <= inject_Z (c mod n))%Q)
      by (rewrite <- inject_Z_plus, <- Zle_Qle; lia).
    change (inject_Z 2) with (2 # 1)%Q in K'. lra.
Qed.

(** ** C4: verification by the sender or the recipient *)

Lemma wrap_tx_dual_encrypted : dual_encrypted demo_lookup wrap_tx.
Proof.
  destruct (demo_lookup "TC001"%string) as [s|] eqn:Hs; [|vm_compute in Hs; discriminate].
  destruct (demo_lookup "GM002"%string) as [r|] eqn:Hr; [|vm_compute in Hr; discriminate].
  destruct (dualEncryptAmount demo_lookup 20000 "TC001" "GM002" 2 3) as [d|] eqn:Ed;
    [|vm_compute in Ed; discriminate].
  exists s, r, 2, 3, d. split; [exact Hs|]. split; [exact Hr|].
  vm_compute in Hs, Hr. injection Hs as <-. injection Hr as <-.
  split; [split; [cbn; lia|vm_compute; reflexivity]|].
  split; [split; [cbn; lia|vm_compute; reflexivity]|].
  split; [exact Ed|]. unfold wrap_tx; cbn [he_sender he_recipient]. rewrite Ed.
  split; reflexivity.
Qed.

(** Claim C4 (as amended).  For a dual-encrypted transaction and a
    claimant that is its sender or its recipient (the sender role taking
    precedence), [verifyDualEncryption] decrypts the claimant's ciphertext
    with the claimant's own private key, obtaining
    [amountInCents mod n_claimant], and returns [canDecrypt = true], that
    value and its amount [value / 100]; [verified] is not a comparison
    with [amountInCents mod n_claimant] but the test
    [|value / 100 - amount| < 0.01] against the transaction's recorded
    amount, which holds exactly when [0 <= amountInCents < n_claimant]:
    it fails whenever the amount wrapped around [n_claimant]. *)
Theorem verifyDualEncryption_party (lookup : Registry) (tx : Tx) (cid : string) :
  registry_valid lookup -> dual_encrypted lookup tx ->
  cid = sender_id tx \/ cid = recipient_id tx ->
  exists company res,
    lookup cid = Some company /\
    verifyDualEncryption lookup tx cid = Some res /\
    v_role res = Some (if String.eqb (sender_id tx) cid then RoleSender else RoleRecipient) /\
    canDecrypt res = true /\
    decryptedCents res =
      Some (mathRound (amount tx * 100)%Q mod pk_n (publicKey (c_keys company))) /\
    decryptedAmount res =
      Some (inject_Z (mathRound (amount tx * 100)%Q mod pk_n (publicKey (c_keys company))) / 100)%Q /\
    verified res =
      Qltb (Qabs (inject_Z (mathRound (amount tx * 100)%Q mod pk_n (publicKey (c_keys company)))
                  / 100 - amount tx)%Q) (1 # 100) /\
    (verified res = true <->
     0 <= mathRound (amount tx * 100)%Q < pk_n (publicKey (c_keys company))).
Proof.
  intros HV HD Hc.
  destruct (verify_party_result lookup tx cid HV HD Hc) as (company & Hl & E).
  pose proof (kf_n_ge _ (valid_keypair_facts _ (HV _ _ Hl))) as Hn.
  eexists company, _. split; [exact Hl|]. split; [exact E|].
  cbn [v_role canDecrypt decryptedCents decryptedAmount verified].
  do 5 (split; [reflexivity|]). split.
  - intros Hv. apply Qltb_true in Hv.
    destruct (Z_le_gt_dec 0 (mathRound (amount tx * 100)%Q)) as [H0|H0];
      [destruct (Z_lt_ge_dec (mathRound (amount tx * 100)%Q) (pk_n (publicKey (c_keys company))))
         as [H1|H1]; [split; assumption|]|];
      exfalso; refine (wrap_not_close _ _ _ Hn (mathRound_close (amount tx)) _ Hv); lia.
  - intros Hb. rewrite Z.mod_small by exact Hb. apply Qltb_true, mathRound_close.
Qed.

Lemma verifyDualEncryption_party_witness :
  (("TC001" = sender_id wrap_tx \/ "TC001" = recipient_id wrap_tx)%string /\
   exists res, verifyDualEncryption demo_lookup wrap_tx "TC001" = Some res /\
     canDecrypt res = true /\ decryptedCents res = Some 977883 /\ verified res = false).
Proof.
  assert (Hc : ("TC001" = sender_id wrap_tx \/ "TC001" = recipient_id wrap_tx)%string)
    by (left; reflexivity).
  split; [exact Hc|].
  pose proof wrap_tx_dual_encrypted as HD.
  destruct (verifyDualEncryption_party demo_lookup wrap_tx "TC001" demo_lookup_valid HD Hc)
    as (company & res & Hl & E & _ & Cd & Dc & _ & _ & Viff).
  vm_compute in Hl. injection Hl as <-.
  exists res. split; [exact E|]. split; [exact Cd|]. split.
  - rewrite Dc. vm_compute. reflexivity.
  - destruct (verified res); [|reflexivity].
    exfalso. destruct (proj1 Viff eq_refl) as [_ Hb]. vm_compute in Hb. discriminate Hb.
Defined.

(** Claim C4 fails: the $20,000.00 transaction [wrap_tx] from TC001
    (whose [n] is 1022117) decrypts for TC001 to exactly the expected
    value [2000000 mod 1022117 = 977883], yet [verified] is false,
    since 9778.83 is not within 0.01 of 20000. *)
Lemma verify_expected_value_not_verified :
  exists res, verifyDualEncryption demo_lookup wrap_tx "TC001" = Some res /\
    v_role res = Some RoleSender /\ canDecrypt res = true /\
    decryptedCents res = Some (mathRound (amount wrap_tx * 100)%Q mod 1022117) /\
    verified res = false.
Proof.
  eexists. split; [vm_compute; reflexivity|].
  vm_compute. repeat split.
Qed.

(** ** C5: role isolation *)

(** Claim C5.  For a dual-encrypted transaction between a sender [A] and a
    recipient [B], [verifyDualEncryption] called by any registered company
    [C] other than [A] and [B] returns, without raising, the third-party
    role with [canDecrypt = false] and [verified = false], while called by
    [A] or by [B] it returns [canDecrypt = true]. *)
Theorem verify_role_isolation (lookup : Registry) (tx : Tx) :
  registry_valid lookup -> dual_encrypted lookup tx ->
  (forall cid company, lookup cid = Some company ->
     cid <> sender_id tx -> cid <> recipient_id tx ->
     exists res, verifyDualEncryption lookup tx cid = Some res /\
       v_role res = Some RoleThirdParty /\ canDecrypt res = false /\ verified res = false) /\
  (exists res, verifyDualEncryption lookup tx (sender_id tx) = Some res /\
     canDecrypt res = true) /\
  (exists res, verifyDualEncryption lookup tx (recipient_id tx) = Some res /\
     canDecrypt res = true).
Proof.
  intros HV HD. split; [|split].
  - intros cid company Hl Hs Hr. unfold verifyDualEncryption. rewrite Hl.
    destruct (String.eqb_spec (sender_id tx) cid) as [E|_]; [congruence|].
    destruct (String.eqb_spec (recipient_id tx) cid) as [E|_]; [congruence|].
    eexists. split; [reflexivity|]. repeat split.
  - destruct (verify_party_result lookup tx (sender_id tx) HV HD (or_introl eq_refl))
      as (c & _ & E).
    eexists. split; [exact E|reflexivity].
  - destruct (verify_party_result lookup tx (recipient_id tx) HV HD (or_intror eq_refl))
      as (c & _ & E).
    eexists. split; [exact E|reflexivity].
Qed.

Lemma verify_role_isolation_witness :
  registry_valid demo_lookup /\ dual_encrypted demo_lookup wrap_tx /\
  (exists res, verifyDualEncryption demo_lookup wrap_tx "SC003" = Some res /\
     canDecrypt res = false) /\
  (exists res, verifyDualEncryption demo_lookup wrap_tx "GM002" = Some res /\
     canDecrypt res = true).
Proof.
  destruct (verify_role_isolation demo_lookup wrap_tx demo_lookup_valid wrap_tx_dual_encrypted)
    as (Third & _ & Recip).
  split; [exact demo_lookup_valid|]. split; [exact wrap_tx_dual_encrypted|].
  split.
  - destruct (demo_lookup "SC003"%string) as [c|] eqn:Hc; [|vm_compute in Hc; discriminate].
    destruct (Third "SC003"%string c Hc) as (res & E & _ & Cd & _);
      [vm_compute; discriminate | vm_compute; discriminate|].
    exists res. split; [exact E|exact Cd].
  - exact Recip.
Defined.

(** ** C3: per-company homomorphic accumulation *)

(** The step of the [reduce] in [calculatePaillierSum]. *)
Lemma paillier_fold_step (kp : Keypair) (dir : Direction) :
  key_facts kp ->
  forall (txs : list Tx) acc macc sacc,
  encodes (pk_n (publicKey kp)) acc macc sacc ->
  (forall tx, In tx txs -> exists s,
     encodes (pk_n (publicKey kp)) (ciphertext_of dir tx) (mathRound (amount tx * 100)%Q) s) ->
  fold_left (fun sum value =>
               if sum =? 0 then value
               else Z.rem (sum * value) (pk_n (publicKey kp) * pk_n (publicKey kp)))
            (map (ciphertext_of dir) txs) acc =
  fold_left (paillierAdd (publicKey kp)) (map (ciphertext_of dir) txs) acc /\
  exists s', encodes (pk_n (publicKey kp))
               (fold_left (paillierAdd (publicKey kp)) (map (ciphertext_of dir) txs) acc)
               (macc + sum_cents txs) s'.
Proof.
  intros HK txs. induction txs as [|tx txs IH]; intros acc macc sacc Hacc Hall.
  - split; [reflexivity|]. exists sacc. cbn. rewrite Z.add_0_r. exact Hacc.
  - destruct (Hall tx (or_introl eq_refl)) as (s & Hs).
    pose proof (encodes_nonzero _ _ _ _ (kf_n_ge _ HK) Hacc) as Hnz.
    pose proof (add_encodes kp HK _ _ _ _ _ _ Hacc Hs) as Hadd.
    destruct (IH _ _ _ Hadd (fun t Ht => Hall t (or_intror Ht))) as (Eq & s' & Hs').
    cbn [map fold_left]. rewrite (proj2 (Z.eqb_neq acc 0) Hnz).
    split; [exact Eq|]. exists s'.
    cbn [sum_cents fold_right]. fold (sum_cents txs). rewrite Z.add_assoc. exact Hs'.
Qed.

Lemma relevant_encodes (lookup : Registry) (txs : list Tx) (cid : string) (dir : Direction)
    (company : Company) :
  registry_valid lookup -> lookup cid = Some company -> Forall (dual_encrypted lookup) txs ->
  forall tx, In tx (relevantTransactions txs cid dir) ->
  exists s, encodes (pk_n (publicKey (c_keys company))) (ciphertext_of dir tx)
              (mathRound (amount tx * 100)%Q) s.
Proof.
  intros HV Hl HF tx Hin. unfold relevantTransactions in Hin.
  apply filter_In in Hin as [Hin Hp]. apply String.eqb_eq in Hp.
  rewrite Forall_forall in HF.
  destruct (dual_encrypted_facts lookup tx HV (HF tx Hin))
    as (s & r & Hs & Hr & (rs & Es) & (rr & Er) & _ & _).
  destruct dir; cbn in Hp |- *.
  - rewrite Hp, Hl in Hs. injection Hs as <-. exists rs. exact Es.
  - rewrite Hp, Hl in Hr. injection Hr as <-. exists rr. exact Er.
Qed.

Lemma small_tx_dual_encrypted : dual_encrypted demo_lookup small_tx.
Proof.
  destruct (demo_lookup "TC001"%string) as [s|] eqn:Hs; [|vm_compute in Hs; discriminate].
  destruct (demo_lookup "SC003"%string) as [r|] eqn:Hr; [|vm_compute in Hr; discriminate].
  destruct (dualEncryptAmount demo_lookup 15 "TC001" "SC003" 5 7) as [d|] eqn:Ed;
    [|vm_compute in Ed; discriminate].
  exists s, r, 5, 7, d. split; [exact Hs|]. split; [exact Hr|].
  vm_compute in Hs, Hr. injection Hs as <-. injection Hr as <-.
  split; [split; [cbn; lia|vm_compute; reflexivity]|].
  split; [split; [cbn; lia|vm_compute; reflexivity]|].
  split; [exact Ed|]. unfold small_tx; cbn [he_sender he_recipient]. rewrite Ed.
  split; reflexivity.
Qed.

(** Claim C3 (as amended).  For a registered company and a direction
    whose matching transactions [first :: rest] (all dual-encrypted) are
    not empty, the homomorphic sum is the fold of homomorphic addition
    under the company's public key over the matching ciphertexts, and it
    decrypts with the company's private key to the sum of their amounts
    in cents modulo the company's [n]; the cleartext total
    [actualSum] is not obtained from this decryption but is the plain sum
    of the recorded amounts of the matching transactions. *)
Theorem calculateCompanyHomomorphicSum_spec (lookup : Registry) (txs : list Tx) (cid : string)
    (dir : Direction) (company : Company) :
  registry_valid lookup -> lookup cid = Some company -> Forall (dual_encrypted lookup) txs ->
  relevantTransactions txs cid dir <> [] ->
  exists res h first rest,
    calculateCompanyHomomorphicSum lookup txs cid dir = Some res /\
    relevantTransactions txs cid dir = first :: rest /\
    homomorphicSum res = Some h /\
    h = fold_left (paillierAdd (publicKey (c_keys company)))
          (map (ciphertext_of dir) rest) (ciphertext_of dir first) /\
    paillierDecrypt (privateKey (c_keys company)) h
      = Some (sum_cents (first :: rest) mod pk_n (publicKey (c_keys company))) /\
    actualSum res = fold_left (fun s tx => s + amount tx)%Q (first :: rest) 0%Q.
Proof.
  intros HV Hl HF Hne.
  pose proof (valid_keypair_facts _ (HV _ _ Hl)) as HK.
  pose proof (relevant_encodes lookup txs cid dir company HV Hl HF) as Henc.
  destruct (relevantTransactions txs cid dir) as [|first rest] eqn:ER; [contradiction|].
  destruct (Henc first (or_introl eq_refl)) as (s0 & H0).
  destruct (paillier_fold_step (c_keys company) dir HK rest _ _ _ H0
              (fun t Ht => Henc t (or_intror Ht))) as (Eq & s' & Hs').
  unfold calculateCompanyHomomorphicSum. rewrite Hl, ER.
  eexists _, _, first, rest. split; [reflexivity|]. split; [reflexivity|].
  split; [reflexivity|]. split.
  - unfold calculatePaillierSum. cbn [map fold_left]. rewrite Z.eqb_refl. exact Eq.
  - split; [|reflexivity].
    unfold calculatePaillierSum. cbn [map fold_left]. rewrite Z.eqb_refl, Eq.
    rewrite (decrypt_encodes _ HK _ _ _ Hs'). reflexivity.
Qed.

Lemma calculateCompanyHomomorphicSum_spec_witness :
  exists res h,
    calculateCompanyHomomorphicSum demo_lookup [wrap_tx; small_tx] "TC001" Sent = Some res /\
    homomorphicSum res = Some h /\
    h = paillierAdd (publicKey paillier_default_keys) (he_sender wrap_tx) (he_sender small_tx) /\
    paillierDecrypt (privateKey paillier_default_keys) h = Some 979383.
Proof.
  destruct (demo_lookup "TC001"%string) as [c|] eqn:Hc; [|vm_compute in Hc; discriminate].
  assert (RE : relevantTransactions [wrap_tx; small_tx] "TC001" Sent = [wrap_tx; small_tx])
    by reflexivity.
  destruct (calculateCompanyHomomorphicSum_spec demo_lookup [wrap_tx; small_tx] "TC001" Sent c
              demo_lookup_valid Hc
              (Forall_cons _ wrap_tx_dual_encrypted
                 (Forall_cons _ small_tx_dual_encrypted (Forall_nil _))))
    as (res & h & first & rest & E & ER & Hh & Eh & Dh & _).
  - rewrite RE. discriminate.
  - rewrite RE in ER. injection ER as <- <-.
    vm_compute in Hc. injection Hc as <-.
    exists res, h. split; [exact E|]. split; [exact Hh|].
    unfold paillier_default_keys. cbn [c_keys map fold_left ciphertext_of] in Eh, Dh.
    split; [exact Eh|]. rewrite Dh. vm_compute. reflexivity.
Defined.

(** Claim C3 fails: for TC001's sent side of [[wrap_tx]], the homomorphic
    sum decrypts to 977883 cents, while the reported total [actualSum] is
    the recorded 20000, which is not 9778.83. *)
Lemma accumulate_total_not_from_decryption :
  exists res h, calculateCompanyHomomorphicSum demo_lookup [wrap_tx] "TC001" Sent = Some res /\
    homomorphicSum res = Some h /\
    paillierDecrypt (privateKey paillier_default_keys) h = Some 977883 /\
    (actualSum res == 20000)%Q /\ ~ (actualSum res == inject_Z 977883 / 100)%Q.
Proof.
  eexists _, _. split; [vm_compute; reflexivity|]. split; [vm_compute; reflexivity|].
  split; [vm_compute; reflexivity|]. split; [vm_compute; reflexivity|].
  vm_compute. discriminate.
Qed.

(** ** C9: network balance *)

Lemma qsum_nil : qsum [] = 0%Q.
Proof. reflexivity. Qed.

Lemma qsum_cons (x : Q) (l : list Q) : qsum (x :: l) = (x + qsum l)%Q.
Proof. reflexivity. Qed.

Ltac qsimpl := cbn [fold_left map filter app]; rewrite ?qsum_cons, ?qsum_nil.

Lemma fold_sum_qsum {A : Type} (f : A -> Q) (l : list A) : forall a,
  (fold_left (fun s x => s + f x) l a == a + qsum (map f l))%Q.
Proof.
  induction l as [|x l IH]; intros a; qsimpl.
  - ring.
  - rewrite IH. ring.
Qed.

Lemma qsum_app (l1 l2 : list Q) : (qsum (l1 ++ l2) == qsum l1 + qsum l2)%Q.
Proof.
  induction l1 as [|x l1 IH]; qsimpl; [ring|]. rewrite IH. ring.
Qed.

Lemma qsum_indicator_absent (ids : list string) (k : string) (a : Q) :
  ~ In k ids -> (qsum (map (fun i => if String.eqb k i then a else 0) ids) == 0)%Q.
Proof.
  induction ids as [|i ids IH]; intros Hni; qsimpl; [reflexivity|].
  destruct (String.eqb_spec k i) as [->|_]; [destruct Hni; left; reflexivity|].
  rewrite IH by (intros H; apply Hni; right; exact H). ring.
Qed.

(** Exactly one id of a list without duplicates matches [k]. *)
Lemma qsum_indicator (ids : list string) (k : string) (a : Q) :
  NoDup ids -> In k ids ->
  (qsum (map (fun i => if String.eqb k i then a else 0) ids) == a)%Q.
Proof.
  induction ids as [|i ids IH]; intros ND Hin; [destruct Hin|].
  inversion ND as [|? ? Hni ND']; subst. qsimpl.
  destruct (String.eqb_spec k i) as [->|Hne].
  - rewrite qsum_indicator_absent by exact Hni. ring.
  - destruct Hin as [->|Hin]; [contradiction|]. rewrite IH by assumption. ring.
Qed.

(** Summing the amounts per owning id counts every transaction once. *)
Lemma qsum_partition (ids : list string) (key : Tx -> string) (txs : list Tx) :
  NoDup ids -> Forall (fun tx => In (key tx) ids) txs ->
  (qsum (map (fun i => qsum (map amount (filter (fun tx => String.eqb (key tx) i) txs))) ids)
   == qsum (map amount txs))%Q.
Proof.
  intros ND. induction txs as [|tx txs IH]; intros HF.
  - qsimpl. clear ND HF. induction ids as [|i ids IH']; qsimpl; [reflexivity|].
    rewrite IH'. ring.
  - inversion HF as [|? ? Hin HF']; subst.
    transitivity (qsum (map (fun i => if String.eqb (key tx) i then amount tx else 0) ids) +
                  qsum (map (fun i => qsum (map amount (filter (fun tx => String.eqb (key tx) i) txs))) ids))%Q.
    + clear IH Hin HF HF' ND. induction ids as [|i ids IH']; qsimpl; [ring|].
      rewrite IH'. destruct (String.eqb (key tx) i); qsimpl; ring.
    + rewrite qsum_indicator, IH by assumption. qsimpl. reflexivity.
Qed.

Lemma fold_lookup_keeps (companies : list Company) : forall (m : Registry) k,
  m k <> None ->
  fold_left (fun m c => map_set (map_set m (c_id c) c) (c_name c) c) companies m k <> None.
Proof.
  induction companies as [|c cs IH]; intros m k H; [exact H|].
  cbn [fold_left]. apply IH. unfold map_set.
  destruct (String.eqb k (c_name c)); [discriminate|].
  destruct (String.eqb k (c_id c)); [discriminate|exact H].
Qed.

Lemma buildCompanyLookup_ids (companies : list Company) (c : Company) :
  In c companies -> buildCompanyLookup companies (c_id c) <> None.
Proof.
  unfold buildCompanyLookup. generalize (fun _ : string => @None Company) as m.
  induction companies as [|c0 cs IH]; intros m Hin; [destruct Hin|].
  cbn [fold_left]. destruct Hin as [->|Hin]; [|apply IH, Hin].
  apply fold_lookup_keeps. unfold map_set.
  destruct (String.eqb (c_id c) (c_name c)); [discriminate|].
  rewrite String.eqb_refl. discriminate.
Qed.

Lemma actualSum_qsum (lookup : Registry) (txs : list Tx) (cid : string) (dir : Direction)
    (company : Company) :
  lookup cid = Some company ->
  exists hs, calculateCompanyHomomorphicSum lookup txs cid dir = Some hs /\
    (actualSum hs == qsum (map amount (relevantTransactions txs cid dir)))%Q.
Proof.
  intros Hl. unfold calculateCompanyHomomorphicSum. rewrite Hl.
  destruct (relevantTransactions txs cid dir) as [|t ts].
  - eexists. split; [reflexivity|]. reflexivity.
  - eexists. split; [reflexivity|]. cbn [actualSum].
    rewrite (fold_sum_qsum amount). ring.
Qed.

Lemma statement_sums (lookup : Registry) (c : Company) (txs : list Tx) :
  lookup (c_id c) <> None ->
  exists cv, generateCompanyFinancialStatement lookup c txs = Some cv /\
    (actualSent cv == qsum (map amount (relevantTransactions txs (c_id c) Sent)))%Q /\
    (actualReceived cv == qsum (map amount (relevantTransactions txs (c_id c) Received)))%Q.
Proof.
  intros Hl. destruct (lookup (c_id c)) as [company|] eqn:E; [|congruence].
  destruct (actualSum_qsum lookup txs (c_id c) Sent company E) as (hs & Es & Ss).
  destruct (actualSum_qsum lookup txs (c_id c) Received company E) as (hr & Er & Sr).
  unfold generateCompanyFinancialStatement. rewrite Es, Er.
  eexists. split; [reflexivity|]. cbn [actualSent actualReceived]. split; assumption.
Qed.

Lemma fold_statements (lookup : Registry) (txs : list Tx) (companies : list Company) :
  (forall c, In c companies -> lookup (c_id c) <> None) ->
  forall acc, exists cvs,
    fold_left (fun acc company =>
                 match acc, generateCompanyFinancialStatement lookup company txs with
                 | Some rs, Some cv => Some (rs ++ [cv])
                 | _, _ => None
                 end) companies (Some acc) = Some (acc ++ cvs) /\
    Forall2 (statement_sums_ok txs) companies cvs.
Proof.
  induction companies as [|c cs IH]; intros Hall acc.
  - exists []. rewrite app_nil_r. split; [reflexivity|constructor].
  - destruct (statement_sums lookup c txs (Hall c (or_introl eq_refl))) as (cv & E & S1 & S2).
    destruct (IH (fun c' H => Hall c' (or_intror H)) (acc ++ [cv])) as (cvs & F & HF).
    exists (cv :: cvs). cbn [fold_left]. rewrite E, F, <- app_assoc. split; [reflexivity|].
    constructor; [split; assumption|exact HF].
Qed.

Lemma qsum_statements (txs : list Tx) (companies : list Company) (cvs : list CompanyVerification) :
  Forall2 (statement_sums_ok txs) companies cvs ->
  (qsum (map actualSent cvs) ==
     qsum (map (fun i => qsum (map amount (relevantTransactions txs i Sent))) (map c_id companies)))%Q /\
  (qsum (map actualReceived cvs) ==
     qsum (map (fun i => qsum (map amount (relevantTransactions txs i Received))) (map c_id companies)))%Q.
Proof.
  induction 1 as [|c cv cs cvs' [S1 S2] _ [IH1 IH2]]; qsimpl; [split; reflexivity|].
  rewrite S1, S2, IH1, IH2. split; reflexivity.
Qed.

Lemma networkBalanced_iff (txs : list Tx) (results : list CompanyVerification) :
  networkBalanced (verifyNetworkIntegrity txs results) = true <->
  (Qabs (qsum (map actualReceived results) - qsum (map actualSent results)) < 1 # 100)%Q.
Proof.
  unfold verifyNetworkIntegrity. cbv zeta.
  destruct (fold_left _ txs ([], [])) as [seen dups].
  cbn [networkBalanced]. rewrite Qltb_true.
  rewrite (fold_sum_qsum actualReceived), (fold_sum_qsum actualSent).
  setoid_replace (0 + qsum (map actualReceived results) - (0 + qsum (map actualSent results)))%Q
    with (qsum (map actualReceived results) - qsum (map actualSent results))%Q by ring.
  reflexivity.
Qed.

(** Claim C9.  [verifyNetworkIntegrity] reports the network as balanced
    exactly when the sum of the companies' declared received totals and
    the sum of their declared sent totals differ by less than 0.01; and
    for a closed set of transactions (every sender and every recipient is
    one of the companies, whose ids are distinct), year-end verification
    finds the two sums equal and reports the network balanced, when
    started from no earlier results or from earlier results that are
    themselves balanced. *)
Theorem network_balance_spec :
  (forall txs results,
     networkBalanced (verifyNetworkIntegrity txs results) = true <->
     (Qabs (qsum (map actualReceived results) - qsum (map actualSent results)) < 1 # 100)%Q) /\
  (forall verificationResults companies txs,
     NoDup (map c_id companies) ->
     Forall (fun tx => In (sender_id tx) (map c_id companies) /\
                       In (recipient_id tx) (map c_id companies)) txs ->
     (qsum (map actualReceived verificationResults) ==
        qsum (map actualSent verificationResults))%Q ->
     exists results ni,
       performYearEndVerification verificationResults companies txs = Some (results, ni) /\
       (totalSent ni == totalReceived ni)%Q /\ networkBalanced ni = true).
Proof.
  split; [exact networkBalanced_iff|].
  intros vr companies txs ND Closed Hvr.
  destruct (fold_statements (buildCompanyLookup companies) txs companies
              (buildCompanyLookup_ids companies) vr) as (cvs & F & HF).
  destruct (qsum_statements txs companies cvs HF) as (SS & SR).
  assert (PS : (qsum (map (fun i => qsum (map amount (relevantTransactions txs i Sent)))
                        (map c_id companies)) == qsum (map amount txs))%Q).
  { apply (qsum_partition _ (party_of Sent) txs ND).
    eapply Forall_impl; [|exact Closed]. intros tx [H _]. exact H. }
  assert (PR : (qsum (map (fun i => qsum (map amount (relevantTransactions txs i Received)))
                        (map c_id companies)) == qsum (map amount txs))%Q).
  { apply (qsum_partition _ (party_of Received) txs ND).
    eapply Forall_impl; [|exact Closed]. intros tx [_ H]. exact H. }
  assert (Eq : (qsum (map actualSent (vr ++ cvs)) == qsum (map actualReceived (vr ++ cvs)))%Q).
  { rewrite !map_app, !qsum_app, SS, SR, PS, PR, Hvr. reflexivity. }
  unfold performYearEndVerification. cbv zeta. rewrite F.
  eexists _, _. split; [reflexivity|]. split.
  - unfold verifyNetworkIntegrity. cbv zeta.
    destruct (fold_left _ txs ([], [])) as [seen dups]. cbn [totalSent totalReceived].
    rewrite (fold_sum_qsum actualReceived), (fold_sum_qsum actualSent), Eq. reflexivity.
  - apply networkBalanced_iff. rewrite Eq.
    setoid_replace (qsum (map actualReceived (vr ++ cvs)) - qsum (map actualReceived (vr ++ cvs)))%Q
      with 0%Q by ring.
    reflexivity.
Qed.

Lemma network_balance_spec_witness :
  NoDup (map c_id demo_companies) /\
  Forall (fun tx => In (sender_id tx) (map c_id demo_companies) /\
                    In (recipient_id tx) (map c_id demo_companies)) [wrap_tx] /\
  exists results ni,
    performYearEndVerification [] demo_companies [wrap_tx] = Some (results, ni) /\
    (totalSent ni == totalReceived ni)%Q /\ networkBalanced ni = true.
Proof.
  assert (Ids : map c_id demo_companies = ["TC001"; "GM002"; "SC003"]%string)
    by (vm_compute; reflexivity).
  assert (ND : NoDup (map c_id demo_companies)).
  { rewrite Ids. constructor; [cbn; intros [H|[H|H]]; [discriminate..|exact H]|].
    constructor; [cbn; intros [H|H]; [discriminate|exact H]|].
    constructor; [intros []|constructor]. }
  assert (Closed : Forall (fun tx => In (sender_id tx) (map c_id demo_companies) /\
                                     In (recipient_id tx) (map c_id demo_companies)) [wrap_tx]).
  { rewrite Ids. constructor; [|constructor]. cbn. split; [left|right; left]; reflexivity. }
  split; [exact ND|]. split; [exact Closed|].
  destruct (proj2 network_balance_spec [] demo_companies [wrap_tx] ND Closed)
    as (results & ni & E & Eq & B); [reflexivity|].
  exists results, ni. split; [exact E|]. split; [exact Eq|exact B].
Defined.

(** ** C10: [processDualEncryption] *)

Module JSFacts.
Import JS.
#[local] Open Scope string_scope.

Lemma get_set_eq (o : jsobj) (k : string) (v : jsval) : get (set o k v) k = v.
Proof.
  induction o as [|[k' v'] o IH]; cbn [set get].
  - rewrite String.eqb_refl. reflexivity.
  - destruct (String.eqb k' k) eqn:E; cbn [get].
    + rewrite String.eqb_refl. reflexivity.
    + rewrite E. exact IH.
Qed.

Lemma get_set_neq (o : jsobj) (k k' : string) (v : jsval) :
  k' <> k -> get (set o k v) k' = get o k'.
Proof.
  intros Hne. induction o as [|[k0 v0] o IH]; cbn [set get].
  - destruct (String.eqb_spec k k'); [congruence|reflexivity].
  - destruct (String.eqb_spec k0 k) as [->|_]; cbn [get].
    + destruct (String.eqb_spec k k'); [congruence|reflexivity].
    + destruct (String.eqb k0 k'); [reflexivity|exact IH].
Qed.

Lemma keys_set (o : jsobj) (k k' : string) (v : jsval) :
  In k' (keys o) -> In k' (keys (set o k v)).
Proof.
  induction o as [|[k0 v0] o IH]; cbn [set keys map fst]; [intros []|].
  destruct (String.eqb_spec k0 k) as [->|_]; cbn [keys map fst]; [tauto|].
  intros [H|H]; [left; exact H|right; apply IH, H].
Qed.

Lemma keys_spread (o : jsobj) (props : list (string * jsval)) (k : string) :
  In k (keys o) -> In k (keys (spread o props)).
Proof.
  unfold spread. revert o. induction props as [|[k0 v0] props IH]; intros o H; cbn [fold_left].
  - exact H.
  - apply IH, keys_set, H.
Qed.

Lemma get_spread_other (o : jsobj) (props : list (string * jsval)) (k : string) :
  ~ In k (map fst props) -> get (spread o props) k = get o k.
Proof.
  unfold spread. revert o. induction props as [|[k0 v0] props IH]; intros o H; cbn [fold_left].
  - reflexivity.
  - cbn [map fst In] in H. rewrite IH by tauto. apply get_set_neq. intros ->. tauto.
Qed.

Lemma process_one (dea : jsval -> jsval -> jsval -> result jsobj) (now : nat -> jsval)
    (tx : jsobj) (index : nat) :
  exists out,
    (let senderId := get tx "sender_id" in
     let recipientId := get tx "recipient_id" in
     if negb (truthy senderId) || negb (truthy recipientId) then Ok tx
     else
       try_catch
         (bind (dea (get tx "amount") senderId recipientId)
               (fun dualEncryption =>
                  Ok (spread tx (success_props dualEncryption (now index)))))
         (fun message =>
            Ok (spread tx [("dual_encrypted", JBool false);
                           ("encryption_error", JStr message)]))) = Ok out /\
    processed dea tx out.
Proof.
  cbv zeta. unfold processed.
  destruct (truthy (get tx "sender_id")) eqn:Hs; cbn [negb orb];
    [|eexists; split; [reflexivity|left; split; [left; reflexivity|reflexivity]]].
  destruct (truthy (get tx "recipient_id")) eqn:Hr; cbn [negb orb];
    [|eexists; split; [reflexivity|left; split; [right; reflexivity|reflexivity]]].
  destruct (dea (get tx "amount") (get tx "sender_id") (get tx "recipient_id"))
    as [d|message] eqn:E; cbn [bind try_catch].
  - eexists. split; [reflexivity|]. right. split; [reflexivity|]. split; [reflexivity|].
    right. exists d. split; [reflexivity|]. split; [|split].
    + unfold spread, success_props. cbn [fold_left].
      rewrite get_set_neq by discriminate. apply get_set_eq.
    + intros k. apply keys_spread.
    + intros k Hk. apply get_spread_other. exact Hk.
  - eexists. split; [reflexivity|]. right. split; [reflexivity|]. split; [reflexivity|].
    left. exists message. split; [reflexivity|]. split; [|split; [|split]].
    + unfold spread. cbn [fold_left].
      rewrite get_set_neq by discriminate. apply get_set_eq.
    + unfold spread. cbn [fold_left]. apply get_set_eq.
    + intros k. apply keys_spread.
    + intros k H1 H2. apply get_spread_other. cbn [map fst In]. intros [H|[H|[]]]; congruence.
Qed.

End JSFacts.

Module ProcessDualEncryption.
Import JS JSFacts.
#[local] Open Scope string_scope.

Lemma map_indexed_processed (dea : jsval -> jsval -> jsval -> result jsobj) (now : nat -> jsval)
    (transactions : list jsobj) : forall i,
  exists out,
    map_indexed (fun transaction index =>
      let senderId := get transaction "sender_id" in
      let recipientId := get transaction "recipient_id" in
      if negb (truthy senderId) || negb (truthy recipientId) then Ok transaction
      else
        try_catch
          (bind (dea (get transaction "amount") senderId recipientId)
                (fun dualEncryption =>
                   Ok (spread transaction (success_props dualEncryption (now index)))))
          (fun message =>
             Ok (spread transaction [("dual_encrypted", JBool false);
                                     ("encryption_error", JStr message)])))
      i transactions = Ok out /\
    Forall2 (processed dea) transactions out.
Proof.
  induction transactions as [|tx txs IH]; intros i.
  - exists []. split; [reflexivity|constructor].
  - destruct (process_one dea now tx i) as (o & Eo & Po).
    destruct (IH (S i)) as (os & Eos & Pos).
    exists (o :: os). cbn [map_indexed]. cbv beta zeta in Eo, Eos |- *. rewrite Eo. cbn [bind]. rewrite Eos.
    split; [reflexivity|constructor; assumption].
Qed.

(** Claim C10.  Whatever [dualEncryptAmount] does on each transaction
    (return a result or throw) and whatever [Date.now()] reads,
    [processDualEncryption] returns without throwing a list of the same
    length whose [i]-th element is made from the [i]-th transaction: a
    transaction whose [sender_id] or [recipient_id] is falsy is returned
    unchanged; one whose encryption throws keeps its properties, gains
    [dual_encrypted = false] and [encryption_error] set to the error's
    message; one that is encrypted keeps every property, with the same
    value outside the five written ones, and has [dual_encrypted = true]. *)
Theorem processDualEncryption_total (dea : jsval -> jsval -> jsval -> result jsobj)
    (now : nat -> jsval) (transactions : list jsobj) :
  exists out,
    processDualEncryption dea now transactions = Ok out /\
    List.length out = List.length transactions /\
    Forall2 (processed dea) transactions out.
Proof.
  destruct (map_indexed_processed dea now transactions 0) as (out & E & P).
  exists out. split; [exact E|]. split; [|exact P].
  symmetry. exact (Forall2_length P).
Qed.

End ProcessDualEncryption.

(** * Further properties of the code *)

(** ** Totality and range of the primitives for a valid key *)

Lemma prime_odd (p : Z) : Z.prime p -> p <> 2 -> Z.Odd p.
Proof.
  intros Hp H2. destruct (Z.Even_or_Odd p) as [[k Hk]|O]; [|exact O].
  exfalso. pose proof (Z.prime_ge_2 _ Hp).
  assert (D : (2 | p)) by (exists k; lia).
  destruct (Z.divide_prime_r 2 p Hp D) as [E|[E|[E|E]]]; lia.
Qed.

(** One of two distinct primes is odd, so [lambda] is even. *)
Lemma valid_lambda_even (kp : Keypair) :
  valid_keypair kp -> Z.Even (sk_lambda (privateKey kp)).
Proof.
  intros (p & q & Hp & Hq & Hpq & H).
  destruct (keypair_of_primes_spec p q kp Hp Hq Hpq H) as (_ & _ & _ & -> & _).
  destruct (Z.eq_dec p 2) as [->|Hp2].
  - destruct (prime_odd q Hq ltac:(congruence)) as [j Hj].
    destruct (lambda_multiple_r 2 q Hp Hq Hpq) as (k & _ & ->).
    exists (j * k). rewrite Hj. ring.
  - destruct (prime_odd p Hp Hp2) as [j Hj].
    destruct (lambda_multiple_l p q Hp Hq Hpq) as (k & _ & ->).
    exists (j * k). rewrite Hj. ring.
Qed.

(** Encryption never throws under a valid key, whatever [m] and [r]. *)
Lemma encrypt_total (kp : Keypair) (m r : Z) :
  key_facts kp -> exists c, paillierEncrypt (publicKey kp) m r = Some c.
Proof.
  intros HK. pose proof (kf_n_ge _ HK) as Hn.
  destruct (g_modPow kp HK m) as (gm & E & _).
  unfold paillierEncrypt. rewrite E. unfold BigInt.modPow at 1.
  destruct (Z.eqb_spec (pk_n (publicKey kp) * pk_n (publicKey kp)) 0) as [|_]; [nia|].
  destruct (Z.ltb_spec (pk_n (publicKey kp)) 0) as [|_]; [lia|].
  eexists. reflexivity.
Qed.

Lemma L_nonneg (x n : Z) : 0 <= x -> 1 < n -> 0 <= L x n.
Proof.
  intros Hx Hn. unfold L. destruct (Z.eq_dec x 0) as [->|Hx0].
  - change (0 - 1) with (- (1)). rewrite Z.quot_opp_l, Z.quot_small by lia. lia.
  - apply Z.quot_pos; lia.
Qed.

(** [c.modPow(lambda, n^2)] for an even [lambda]: the sign of [c] is lost. *)
Lemma modPow_even (c lam m : Z) :
  0 < m -> 0 < lam -> Z.Even lam ->
  BigInt.modPow c lam m = Some ((c ^ lam) mod m) /\
  BigInt.modPow (- c) lam m = Some ((c ^ lam) mod m).
Proof.
  intros Hm Hl He.
  assert (G : forall b, BigInt.modPow b lam m = Some (Z.rem (b ^ lam) m)).
  { intros b. unfold BigInt.modPow.
    destruct (Z.eqb_spec m 0) as [|_]; [lia|]. destruct (Z.ltb_spec lam 0) as [|_]; [lia|].
    rewrite pow_rem_pos, rem_pow_l_Z by lia. reflexivity. }
  rewrite !G, Z.pow_opp_even by exact He.
  rewrite Z.rem_mod_nonneg by (try apply Z.pow_even_nonneg; auto; lia).
  split; reflexivity.
Qed.

(** Decryption under a valid key: never throws, lands in [[0, n)], and
    [c] and [-c] decrypt alike. *)
Lemma decrypt_range_opp (kp : Keypair) (c : Z) :
  valid_keypair kp ->
  exists d, paillierDecrypt (privateKey kp) c = Some d /\
    paillierDecrypt (privateKey kp) (- c) = Some d /\ 0 <= d < pk_n (publicKey kp).
Proof.
  intros HV. pose proof (valid_keypair_facts kp HV) as HK.
  pose proof (kf_n_ge _ HK) as Hn. pose proof (kf_lambda_pos _ HK) as Hl.
  pose proof (kf_mu_nonneg _ HK) as Hmu. pose proof (valid_lambda_even kp HV) as He.
  unfold paillierDecrypt. rewrite (kf_sk_n _ HK).
  destruct (modPow_even c (sk_lambda (privateKey kp)) (pk_n (publicKey kp) * pk_n (publicKey kp)))
    as [E1 E2]; [nia|exact Hl|exact He|].
  rewrite E1, E2. eexists. split; [reflexivity|]. split; [reflexivity|].
  apply Z.rem_bound_pos; [|lia].
  apply Z.mul_nonneg_nonneg; [|exact Hmu].
  apply L_nonneg; [apply Z.mod_pos_bound; nia|lia].
Qed.

(** Decrypting 0, the value of an empty homomorphic sum, gives 0. *)
Lemma decrypt_zero (kp : Keypair) :
  key_facts kp -> paillierDecrypt (privateKey kp) 0 = Some 0.
Proof.
  intros HK. pose proof (kf_n_ge _ HK) as Hn. pose proof (kf_lambda_pos _ HK) as Hl.
  unfold paillierDecrypt. rewrite (kf_sk_n _ HK), modPow_pos by nia.
  rewrite Z.pow_0_l, Z.mod_0_l by nia.
  unfold L. change (0 - 1) with (- (1)). rewrite Z.quot_opp_l, Z.quot_small by lia.
  reflexivity.
Qed.

(** [Z.rem] and [mod] agree modulo [n]. *)
Lemma rem_mod_n (a n : Z) : n <> 0 -> Z.rem a n mod n = a mod n.
Proof.
  intros Hn. rewrite Z.rem_eq by exact Hn.
  replace (a - n * Z.quot a n) with (a + (- Z.quot a n) * n) by ring.
  apply Z.mod_add, Hn.
Qed.

(** ** Homomorphic sums of rows *)

(** The [for] loop of [calculateHomomorphicSum] on encodings. *)
Lemma fold_add_encodes (kp : Keypair) :
  key_facts kp ->
  forall cs ms acc macc sacc,
  Forall2 (fun c m => exists s, encodes (pk_n (publicKey kp)) c m s) cs ms ->
  encodes (pk_n (publicKey kp)) acc macc sacc ->
  exists s, encodes (pk_n (publicKey kp))
              (fold_left (fun sum c => paillierAdd (publicKey kp) sum c) cs acc)
              (macc + fold_right Z.add 0 ms) s.
Proof.
  intros HK cs ms acc macc sacc HF. revert acc macc sacc.
  induction HF as [|c m cs ms [s Hs] _ IH]; intros acc macc sacc Ha.
  - exists sacc. cbn. rewrite Z.add_0_r. exact Ha.
  - cbn [fold_left fold_right].
    destruct (IH _ _ _ (add_encodes kp HK _ _ _ _ _ _ Ha Hs)) as [s' Hs'].
    exists s'. rewrite Z.add_assoc. exact Hs'.
Qed.

(** Rows whose sender ciphertexts encrypt [ms] under a valid key. *)
Lemma rows_encodes (kp : Keypair) (rows : list EncryptedRow) (ms : list Z) :
  key_facts kp ->
  Forall2 (fun row m => exists r, 0 <= r /\ Z.gcd r (pk_n (publicKey kp)) = 1 /\
             paillierEncrypt (publicKey kp) m r = Some (he_pk_sender row)) rows ms ->
  Forall2 (fun c m => exists s, encodes (pk_n (publicKey kp)) c m s) (map he_pk_sender rows) ms.
Proof.
  intros HK HF. induction HF as [|row m rows ms (r & Hr & Hg & E) _ IH]; constructor; [|exact IH].
  exists r. exact (encrypt_decrypt_mod kp m r _ HK Hr Hg E).
Qed.

Lemma homomorphic_sum_decrypts (kp : Keypair) (rows : list EncryptedRow) (ms : list Z) :
  key_facts kp ->
  Forall2 (fun c m => exists s, encodes (pk_n (publicKey kp)) c m s) (map he_pk_sender rows) ms ->
  paillierDecrypt (privateKey kp) (calculateHomomorphicSum (publicKey kp) rows)
    = Some (fold_right Z.add 0 ms mod pk_n (publicKey kp)).
Proof.
  intros HK HF. unfold calculateHomomorphicSum.
  destruct (map he_pk_sender rows) as [|c cs].
  - inversion HF; subst. rewrite decrypt_zero by exact HK. cbn [fold_right].
    rewrite Z.mod_0_l; [reflexivity|].
    pose proof (kf_n_ge _ HK). lia.
  - inversion HF as [|? m ? ms' [s Hs] HF']. subst.
    destruct (fold_add_encodes kp HK cs ms' c m s HF' Hs) as [s' Hs'].
    rewrite (decrypt_encodes kp HK _ _ _ Hs'). reflexivity.
Qed.

(** On encodings, the [reduce] of [calculatePaillierSum] is the loop of
    [calculateHomomorphicSum]: an encoding is never 0. *)
Lemma fold_paillier_sum_add (kp : Keypair) :
  key_facts kp ->
  forall cs ms acc macc sacc,
  Forall2 (fun c m => exists s, encodes (pk_n (publicKey kp)) c m s) cs ms ->
  encodes (pk_n (publicKey kp)) acc macc sacc ->
  fold_left (fun sum value =>
               if sum =? 0 then value
               else Z.rem (sum * value) (pk_n (publicKey kp) * pk_n (publicKey kp))) cs acc
  = fold_left (fun sum c => paillierAdd (publicKey kp) sum c) cs acc.
Proof.
  intros HK cs ms acc macc sacc HF. revert acc macc sacc.
  pose proof (kf_n_ge _ HK) as Hn.
  induction HF as [|c m cs ms [s Hs] _ IH]; intros acc macc sacc Ha; [reflexivity|].
  cbn [fold_left].
  destruct (Z.eqb_spec acc 0) as [E|_]; [exfalso; exact (encodes_nonzero _ _ _ _ Hn Ha E)|].
  exact (IH _ _ _ (add_encodes kp HK _ _ _ _ _ _ Ha Hs)).
Qed.

(** ** [encryptAmounts] *)

Lemma encrypt_rows_spec (kp : Keypair) (rs : nat -> Z * Z) :
  key_facts kp -> draws_ok (pk_n (publicKey kp)) rs ->
  forall amounts i, exists out, encrypt_rows (publicKey kp) rs i amounts = Some out /\
    Forall2 (encrypted_row_ok kp) amounts out.
Proof.
  intros HK Hrs amounts. pose proof (kf_n_ge _ HK) as Hn.
  induction amounts as [|a amounts IH]; intros i.
  - exists []. split; [reflexivity|constructor].
  - cbn [encrypt_rows]. destruct (Z.eqb_spec (pk_n (publicKey kp)) 0) as [|_]; [lia|].
    set (e := Z.rem (mathRound (a * 100)%Q) (pk_n (publicKey kp))).
    destruct (Hrs i) as (H1 & G1 & H2 & G2).
    destruct (encrypt_total kp e (fst (rs i)) HK) as [cs Es].
    destruct (encrypt_total kp e (snd (rs i)) HK) as [cr Er].
    destruct (IH (S i)) as (out & Eo & HF).
    rewrite Es, Er, Eo. eexists. split; [reflexivity|].
    constructor; [|exact HF].
    repeat split; cbn [er_amount original_amount_cents encryptable_amount he_pk_sender he_pk_recipient].
    + eexists. split; [exact H1|]. split; [exact G1|exact Es].
    + eexists. split; [exact H2|]. split; [exact G2|exact Er].
Qed.

(** ** The expected sum of [processAccounting] *)

Lemma fold_encryptableSum (n : Z) (amounts : list Q) :
  1 < n -> forall acc, - n < acc < n ->
  let s := fold_left (fun sum a => Z.rem (sum + Z.rem (mathRound (a * 100)%Q) n) n) amounts acc in
  - n < s < n /\
  s mod n = (acc + fold_right Z.add 0 (map (fun a => Z.rem (mathRound (a * 100)%Q) n) amounts)) mod n /\
  (0 <= acc -> Forall (fun a => 0 <= a)%Q amounts -> 0 <= s).
Proof.
  intros Hn. induction amounts as [|a amounts IH]; intros acc Hacc; cbv zeta.
  - cbn. rewrite Z.add_0_r. split; [exact Hacc|]. split; [reflexivity|]. intros H _; exact H.
  - cbn [fold_left fold_right map].
    set (x := Z.rem (mathRound (a * 100)%Q) n).
    set (acc' := Z.rem (acc + x) n).
    assert (B : - n < acc' < n).
    { pose proof (Z.rem_bound_abs (acc + x) n ltac:(lia)). unfold acc'. lia. }
    destruct (IH acc' B) as (B' & M & P). cbv zeta in B', M, P.
    split; [exact B'|]. split.
    + rewrite M. unfold acc'.
      rewrite <- (Z.add_mod_idemp_l (Z.rem (acc + x) n)), rem_mod_n, Z.add_mod_idemp_l by lia.
      f_equal. ring.
    + intros H0 HF. inversion HF as [|? ? Ha HF']. subst. apply P; [|exact HF'].
      unfold acc', x. apply Z.rem_nonneg; [lia|].
      apply Z.add_nonneg_nonneg; [exact H0|]. apply Z.rem_nonneg; [lia|].
      unfold mathRound. change 0 with (Qfloor 0). apply Qfloor_resp_le.
      apply Qle_trans with (a * 100)%Q; [|lra]. apply Qmult_le_0_compat; [exact Ha|]. lra.
Qed.

Lemma rows_ok_encodes (kp : Keypair) (amounts : list Q) (out : list EncryptedRow) :
  key_facts kp -> Forall2 (encrypted_row_ok kp) amounts out ->
  map er_amount out = amounts /\
  Forall2 (fun c m => exists s, encodes (pk_n (publicKey kp)) c m s)
    (map he_pk_sender out)
    (map (fun a => Z.rem (mathRound (a * 100)%Q) (pk_n (publicKey kp))) amounts).
Proof.
  intros HK HF.
  induction HF as [|a row amounts out (Ea & _ & Ee & (r & Hr & Hg & E) & _) _ [IH1 IH2]];
    [split; constructor|].
  cbn [map]. rewrite Ea, IH1. split; [reflexivity|]. constructor; [|exact IH2].
  exists r. rewrite <- Ee. exact (encrypt_decrypt_mod kp _ r _ HK Hr Hg E).
Qed.

(** [x mod n] for [x] in [(-n, n)] *)
Lemma mod_of_small (x n : Z) :
  - n < x < n -> x mod n = if 0 <=? x then x else x + n.
Proof.
  intros B. destruct (Z.leb_spec 0 x).
  - apply Z.mod_small. lia.
  - replace x with ((x + n) + (-1) * n) at 1 by ring.
    rewrite Z.mod_add, Z.mod_small by lia. reflexivity.
Qed.

(** ** [testKeypair] and [generateAllCompanyKeypairs] *)

Lemma testKeypair_result (kp : Keypair) (v r : Z) :
  valid_keypair kp -> 0 <= r -> Z.gcd r (pk_n (publicKey kp)) = 1 ->
  testKeypair kp v r = Some ((0 <=? v) && (v <? pk_n (publicKey kp))).
Proof.
  intros HV Hr Hg. pose proof (valid_keypair_facts kp HV) as HK.
  pose proof (kf_n_ge _ HK) as Hn.
  destruct (encrypt_encodes kp HK v r Hr Hg) as (c & E & Enc).
  unfold testKeypair. rewrite E, (decrypt_encodes kp HK c v r Enc). f_equal.
  destruct (Z.leb_spec 0 v); destruct (Z.ltb_spec v (pk_n (publicKey kp))); cbn [andb].
  - apply Z.eqb_eq, Z.mod_small. lia.
  - apply Z.eqb_neq. intros M. apply Z.mod_small_iff in M; lia.
  - apply Z.eqb_neq. intros M. apply Z.mod_small_iff in M; lia.
  - apply Z.eqb_neq. intros M. apply Z.mod_small_iff in M; lia.
Qed.

Lemma pair_key (p q : Z) :
  primeb p = true -> primeb q = true -> (p =? q) = false -> 12345 < p * q ->
  keypair_of_primes p q <> None ->
  exists kp, keypair_of_primes p q = Some kp /\ valid_keypair kp /\ 12345 < pk_n (publicKey kp).
Proof.
  intros Hp Hq Hpq Hb Hs. destruct (keypair_of_primes p q) as [kp|] eqn:E; [|congruence].
  exists kp. split; [reflexivity|]. split; [exact (valid_of_primeb p q kp Hp Hq Hpq E)|].
  destruct (keypair_of_primes_shape p q kp E) as (-> & _). exact Hb.
Qed.

(** The eight keys of the table are valid and their moduli exceed 12345. *)
Lemma table_key (i : nat) :
  (i < 8)%nat ->
  exists kp, generateCompanyKeypair i = Some kp /\ valid_keypair kp /\ 12345 < pk_n (publicKey kp).
Proof.
  intros Hi. unfold generateCompanyKeypair, generateKeypairFrom.
  do 8 (destruct i as [|i];
        [cbn [nth_error companyPrimePairs];
         apply pair_key; vm_compute; first [reflexivity | discriminate] |]).
  lia.
Qed.

Lemma generateCompanyKeypair_big (i : nat) (kp : Keypair) :
  generateCompanyKeypair i = Some kp -> 12345 < pk_n (publicKey kp).
Proof.
  intros E. destruct (Nat.lt_ge_cases i 8) as [Hi|Hi].
  - destruct (table_key i Hi) as (kp' & E' & _ & B). congruence.
  - unfold generateCompanyKeypair, generateKeypairFrom in E.
    rewrite (proj2 (nth_error_None companyPrimePairs i)) in E by (cbn; lia). discriminate.
Qed.

Lemma generate_loop_spec (rs : nat -> Z) :
  (forall i kp, generateCompanyKeypair i = Some kp -> accepted (pk_n (publicKey kp)) (rs i)) ->
  forall k i acc, (i + k <= 8)%nat ->
  exists l, generate_loop i k rs acc = Some (acc ++ l) /\ List.length l = k /\
    Forall valid_keypair l /\
    forall j, (j < k)%nat -> nth_error l j = generateCompanyKeypair (i + j).
Proof.
  intros Hrs k. induction k as [|k IH]; intros i acc Hk.
  - exists []. rewrite app_nil_r. split; [reflexivity|]. split; [reflexivity|].
    split; [constructor|]. intros j Hj. lia.
  - destruct (table_key i ltac:(lia)) as (kp & E & V & B).
    destruct (Hrs i kp E) as [Hr Hg].
    destruct (IH (S i) (acc ++ [kp]) ltac:(lia)) as (l & El & Ll & Vl & Nl).
    exists (kp :: l). cbn [generate_loop]. rewrite E, (testKeypair_result kp 12345 (rs i) V) by lia.
    replace ((0 <=? 12345) && (12345 <? pk_n (publicKey kp))) with true
      by (symmetry; apply andb_true_iff; split; [reflexivity|apply Z.ltb_lt; lia]).
    rewrite El, <- app_assoc. split; [reflexivity|]. split; [cbn; rewrite Ll; reflexivity|].
    split; [constructor; assumption|].
    intros [|j] Hj; cbn [nth_error].
    + rewrite Nat.add_0_r. symmetry. exact E.
    + rewrite Nl by lia. f_equal. lia.
Qed.

(** ** The company lookup map *)

Lemma map_set2_some (m : Registry) (c : Company) (k : string) :
  map_set (map_set m (c_id c) c) (c_name c) c k <> None <->
  c_name c = k \/ c_id c = k \/ m k <> None.
Proof.
  unfold map_set.
  destruct (String.eqb_spec k (c_name c)) as [->|Hn].
  { split; [intros _; left; reflexivity|intros _; discriminate]. }
  destruct (String.eqb_spec k (c_id c)) as [->|Hi].
  { split; [intros _; right; left; reflexivity|intros _; discriminate]. }
  split; [intros H; right; right; exact H|].
  intros [H|[H|H]]; [congruence|congruence|exact H].
Qed.

Lemma fold_lookup_some (companies : list Company) : forall (m : Registry) k,
  fold_left (fun m c => map_set (map_set m (c_id c) c) (c_name c) c) companies m k <> None <->
  m k <> None \/ In k (company_keys companies).
Proof.
  unfold company_keys.
  induction companies as [|c cs IH]; intros m k; cbn [fold_left map app].
  - split; [intros H; left; exact H|]. intros [H|[]]; exact H.
  - rewrite IH, map_set2_some, !in_app_iff. cbn [In]. rewrite ?in_app_iff. cbn [In]. tauto.
Qed.

Lemma fold_lookup_absent (companies : list Company) : forall (m : Registry) k,
  ~ In k (company_keys companies) ->
  fold_left (fun m c => map_set (map_set m (c_id c) c) (c_name c) c) companies m k = m k.
Proof.
  unfold company_keys.
  induction companies as [|c cs IH]; intros m k Hk; cbn [fold_left map app] in *; [reflexivity|].
  cbn [In] in Hk. rewrite in_app_iff in Hk. cbn [In] in Hk.
  rewrite IH by (rewrite in_app_iff; tauto). unfold map_set.
  destruct (String.eqb_spec k (c_name c)); [exfalso; apply Hk; right; right; left; congruence|].
  destruct (String.eqb_spec k (c_id c)); [exfalso; apply Hk; left; congruence|reflexivity].
Qed.

Lemma fold_lookup_distinct (companies : list Company) : forall (m : Registry),
  NoDup (company_keys companies) -> forall c, In c companies ->
  fold_left (fun m c => map_set (map_set m (c_id c) c) (c_name c) c) companies m (c_id c) = Some c /\
  fold_left (fun m c => map_set (map_set m (c_id c) c) (c_name c) c) companies m (c_name c) = Some c.
Proof.
  induction companies as [|c0 cs IH]; intros m ND c Hin; [destruct Hin|].
  unfold company_keys in ND. cbn [map app] in ND.
  apply NoDup_cons_iff in ND as [Nid ND1].
  assert (ND2 : NoDup (company_keys cs)) by exact (NoDup_remove_1 _ _ _ ND1).
  pose proof (NoDup_remove_2 _ _ _ ND1) as Nname.
  assert (Nid' : ~ In (c_id c0) (company_keys cs)).
  { unfold company_keys. rewrite in_app_iff in *. cbn [In] in Nid. tauto. }
  cbn [fold_left]. destruct Hin as [<-|Hin]; [|exact (IH _ ND2 c Hin)].
  rewrite !fold_lookup_absent by assumption. unfold map_set.
  split; [|rewrite String.eqb_refl; reflexivity].
  destruct (String.eqb (c_id c0) (c_name c0)); [reflexivity|].
  rewrite String.eqb_refl. reflexivity.
Qed.

(** ** Error behaviour of the processor *)

Lemma decrypt_total (kp : Keypair) (c : Z) :
  key_facts kp -> exists d, paillierDecrypt (privateKey kp) c = Some d.
Proof.
  intros HK. pose proof (kf_n_ge _ HK). pose proof (kf_lambda_pos _ HK).
  unfold paillierDecrypt, BigInt.modPow.
  destruct (Z.eqb_spec (sk_n (privateKey kp) * sk_n (privateKey kp)) 0) as [E|_].
  { rewrite (kf_sk_n _ HK) in E. nia. }
  destruct (Z.ltb_spec (sk_lambda (privateKey kp)) 0) as [|_]; [lia|].
  eexists. reflexivity.
Qed.

(** ** Year-end verification *)

Lemma Qltb_self (x : Q) : Qltb (Qabs (x - x)) (1 # 100) = true.
Proof.
  apply Qltb_true. setoid_replace (x - x)%Q with 0%Q by ring. reflexivity.
Qed.

Lemma statement_verified (lookup : Registry) (c : Company) (txs : list Tx) (cv : CompanyVerification) :
  generateCompanyFinancialStatement lookup c txs = Some cv -> cv_verified cv = true.
Proof.
  unfold generateCompanyFinancialStatement.
  destruct (calculateCompanyHomomorphicSum lookup txs (c_id c) Sent) as [s|]; [|discriminate].
  destruct (calculateCompanyHomomorphicSum lookup txs (c_id c) Received) as [r|]; [|discriminate].
  cbv zeta. rewrite !Qltb_self. intros H. injection H as <-. reflexivity.
Qed.

Lemma fold_statements_some (lookup : Registry) (txs : list Tx) (companies : list Company) :
  (forall c, In c companies -> lookup (c_id c) <> None) ->
  exists cvs, Forall2 (fun c cv => generateCompanyFinancialStatement lookup c txs = Some cv)
                companies cvs /\
    forall acc,
      fold_left (fun acc company =>
                   match acc, generateCompanyFinancialStatement lookup company txs with
                   | Some rs, Some cv => Some (rs ++ [cv])
                   | _, _ => None
                   end) companies (Some acc) = Some (acc ++ cvs).
Proof.
  induction companies as [|c cs IH]; intros Hall.
  - exists []. split; [constructor|]. intros acc. rewrite app_nil_r. reflexivity.
  - destruct (statement_sums lookup c txs (Hall c (or_introl eq_refl))) as (cv & E & _).
    destruct (IH (fun c' H => Hall c' (or_intror H))) as (cvs & HF & F).
    exists (cv :: cvs). split; [constructor; assumption|].
    intros acc. cbn [fold_left]. rewrite E, F, <- app_assoc. reflexivity.
Qed.

Lemma performYearEndVerification_some (verificationResults : list CompanyVerification)
    (companies : list Company) (txs : list Tx) :
  exists cvs,
    Forall2 (fun c cv => generateCompanyFinancialStatement (buildCompanyLookup companies) c txs
                         = Some cv) companies cvs /\
    performYearEndVerification verificationResults companies txs
      = Some (verificationResults ++ cvs, verifyNetworkIntegrity txs (verificationResults ++ cvs)).
Proof.
  destruct (fold_statements_some (buildCompanyLookup companies) txs companies
              (buildCompanyLookup_ids companies)) as (cvs & HF & F).
  exists cvs. split; [exact HF|].
  unfold performYearEndVerification. cbv zeta. rewrite F. reflexivity.
Qed.

Lemma network_totals (txs : list Tx) (results : list CompanyVerification) :
  (totalSent (verifyNetworkIntegrity txs results) == qsum (map actualSent results))%Q /\
  (totalReceived (verifyNetworkIntegrity txs results) == qsum (map actualReceived results))%Q /\
  (networkBalance (verifyNetworkIntegrity txs results)
     == qsum (map actualReceived results) - qsum (map actualSent results))%Q /\
  allCompaniesVerified (verifyNetworkIntegrity txs results) = forallb cv_verified results.
Proof.
  unfold verifyNetworkIntegrity. cbv zeta.
  destruct (fold_left _ txs ([], [])) as [seen dups].
  cbn [totalSent totalReceived networkBalance allCompaniesVerified].
  rewrite (fold_sum_qsum actualReceived), (fold_sum_qsum actualSent).
  split; [ring|]. split; [ring|]. split; [ring|reflexivity].
Qed.

Lemma fold_duplicates (txs : list Tx) : forall (seen dups : list Z),
  NoDup seen ->
  (snd (fold_left (fun '(seen, dups) tx =>
                     if existsb (Z.eqb (tx_num tx)) seen then (seen, dups ++ [tx_num tx])
                     else (seen ++ [tx_num tx], dups)) txs (seen, dups)) = [] <->
   dups = [] /\ NoDup (seen ++ map tx_num txs)).
Proof.
  induction txs as [|tx txs IH]; intros seen dups ND; cbn [fold_left map].
  - rewrite app_nil_r. cbn [snd]. tauto.
  - destruct (existsb (Z.eqb (tx_num tx)) seen) eqn:Ex.
    + apply existsb_exists in Ex as (x & Hx & Ex). apply Z.eqb_eq in Ex. subst x.
      rewrite IH by exact ND. split.
      * intros [H _]. destruct dups; discriminate H.
      * intros [_ H]. exfalso. apply (NoDup_remove_2 _ _ _ H). apply in_app_iff. left. exact Hx.
    + assert (Hn : ~ In (tx_num tx) seen).
      { intros Hin. assert (T : existsb (Z.eqb (tx_num tx)) seen = true)
          by (apply existsb_exists; exists (tx_num tx); split; [exact Hin|apply Z.eqb_refl]).
        congruence. }
      rewrite IH, <- app_assoc by
        (apply NoDup_app; [exact ND|constructor; [intros []|constructor]|];
         intros a Ha [<-|[]]; contradiction).
      reflexivity.
Qed.


(** ** Extra properties *)

(** X1.  [PaillierEncryption.encrypt] and [decrypt] under a valid key
    accept every integer plaintext, negative ones included (the
    exponentiation inverts [g]): with an accepted [r] the ciphertext lies
    in [[0, n^2)] and decrypts to [m mod n]. *)
Theorem encrypt_decrypt_any_integer (kp : Keypair) (m r : Z) :
  valid_keypair kp -> 0 <= r -> Z.gcd r (pk_n (publicKey kp)) = 1 ->
  exists c, paillierEncrypt (publicKey kp) m r = Some c /\
    0 <= c < pk_n (publicKey kp) * pk_n (publicKey kp) /\
    paillierDecrypt (privateKey kp) c = Some (m mod pk_n (publicKey kp)).
Proof.
  intros HV Hr Hg. pose proof (valid_keypair_facts kp HV) as HK.
  pose proof (kf_n_ge _ HK) as Hn.
  destruct (encrypt_encodes kp HK m r Hr Hg) as (c & E & Enc).
  exists c. split; [exact E|]. split; [|exact (decrypt_encodes kp HK c m r Enc)].
  destruct (g_modPow kp HK m) as (gm & Egm & Pgm & _).
  unfold paillierEncrypt in E. rewrite Egm, modPow_pos in E by nia.
  injection E as <-. apply Z.rem_bound_pos; [|nia].
  apply Z.mul_nonneg_nonneg; [exact Pgm|]. apply Z.mod_pos_bound. nia.
Qed.

Lemma encrypt_decrypt_any_integer_witness :
  exists c, paillierEncrypt (publicKey paillier_default_keys) (-100) 2 = Some c /\
    0 <= c < 1022117 * 1022117 /\
    paillierDecrypt (privateKey paillier_default_keys) c = Some ((-100) mod 1022117).
Proof.
  apply (encrypt_decrypt_any_integer paillier_default_keys (-100) 2).
  - exact paillier_default_keys_valid.
  - lia.
  - vm_compute. reflexivity.
Defined.

(** X2.  Decryption under a valid key never throws: every integer [c],
    even one no encryption produces, decrypts to a value in [[0, n)], and
    [-c] decrypts to the same value as [c] ([lambda] is even). *)
Theorem paillierDecrypt_range_sign (kp : Keypair) (c : Z) :
  valid_keypair kp ->
  exists d, paillierDecrypt (privateKey kp) c = Some d /\
    paillierDecrypt (privateKey kp) (- c) = Some d /\ 0 <= d < pk_n (publicKey kp).
Proof. apply decrypt_range_opp. Qed.

Lemma paillierDecrypt_range_sign_witness :
  exists d, paillierDecrypt (privateKey paillier_default_keys) 123456789 = Some d /\
    paillierDecrypt (privateKey paillier_default_keys) (- 123456789) = Some d /\
    0 <= d < pk_n (publicKey paillier_default_keys).
Proof.
  apply paillierDecrypt_range_sign. exact paillier_default_keys_valid.
Defined.

(** X3.  [calculateHomomorphicSum] of rows whose sender ciphertexts are
    encryptions of [m1, ..., mk] under a valid key (drawn with accepted
    [r]) decrypts to [(m1 + ... + mk) mod n]; for no row it returns 0,
    which decrypts to 0. *)
Theorem calculateHomomorphicSum_decrypts (kp : Keypair) (rows : list EncryptedRow) (ms : list Z) :
  valid_keypair kp ->
  Forall2 (fun row m => exists r, 0 <= r /\ Z.gcd r (pk_n (publicKey kp)) = 1 /\
             paillierEncrypt (publicKey kp) m r = Some (he_pk_sender row)) rows ms ->
  paillierDecrypt (privateKey kp) (calculateHomomorphicSum (publicKey kp) rows)
    = Some (fold_right Z.add 0 ms mod pk_n (publicKey kp)).
Proof.
  intros HV HF. pose proof (valid_keypair_facts kp HV) as HK.
  exact (homomorphic_sum_decrypts kp rows ms HK (rows_encodes kp rows ms HK HF)).
Qed.

Lemma calculateHomomorphicSum_decrypts_witness :
  paillierDecrypt (privateKey paillier_default_keys)
    (calculateHomomorphicSum (publicKey paillier_default_keys)
       [{| er_amount := 15; he_pk_sender := 440693833735; he_pk_recipient := 0;
           original_amount_cents := 1500; encryptable_amount := 1500 |};
        {| er_amount := 25; he_pk_sender := 780776347594; he_pk_recipient := 0;
           original_amount_cents := 2500; encryptable_amount := 2500 |}])
  = Some (fold_right Z.add 0 [1500; 2500] mod pk_n (publicKey paillier_default_keys)).
Proof.
  apply calculateHomomorphicSum_decrypts; [exact paillier_default_keys_valid|].
  constructor; [exists 2|constructor; [exists 3|constructor]];
    (split; [lia|split; vm_compute; reflexivity]).
Defined.

(** X4.  On ciphertexts produced by encryption under a valid key, the
    [calculatePaillierSum] of the processor (part_000) and the
    [calculateHomomorphicSum] of excelOperations.js compute the same
    integer: the processor's test for a zero running sum never fires. *)
Theorem calculatePaillierSum_agrees (kp : Keypair) (rows : list EncryptedRow) (ms : list Z) :
  valid_keypair kp ->
  Forall2 (fun row m => exists r, 0 <= r /\ Z.gcd r (pk_n (publicKey kp)) = 1 /\
             paillierEncrypt (publicKey kp) m r = Some (he_pk_sender row)) rows ms ->
  calculatePaillierSum (map he_pk_sender rows) (publicKey kp)
    = calculateHomomorphicSum (publicKey kp) rows.
Proof.
  intros HV HF. pose proof (valid_keypair_facts kp HV) as HK.
  pose proof (kf_n_ge _ HK) as Hn.
  pose proof (rows_encodes kp rows ms HK HF) as HE.
  unfold calculatePaillierSum, calculateHomomorphicSum.
  destruct (map he_pk_sender rows) as [|c cs]; [reflexivity|].
  inversion HE as [|? m ? ms' [s Hs] HF']. subst.
  cbn [fold_left]. rewrite Z.eqb_refl.
  exact (fold_paillier_sum_add kp HK cs ms' c m s HF' Hs).
Qed.

Lemma calculatePaillierSum_agrees_witness :
  calculatePaillierSum [440693833735; 780776347594] (publicKey paillier_default_keys)
  = calculateHomomorphicSum (publicKey paillier_default_keys)
       [{| er_amount := 15; he_pk_sender := 440693833735; he_pk_recipient := 0;
           original_amount_cents := 1500; encryptable_amount := 1500 |};
        {| er_amount := 25; he_pk_sender := 780776347594; he_pk_recipient := 0;
           original_amount_cents := 2500; encryptable_amount := 2500 |}].
Proof.
  change [440693833735; 780776347594] with (map he_pk_sender
       [{| er_amount := 15; he_pk_sender := 440693833735; he_pk_recipient := 0;
           original_amount_cents := 1500; encryptable_amount := 1500 |};
        {| er_amount := 25; he_pk_sender := 780776347594; he_pk_recipient := 0;
           original_amount_cents := 2500; encryptable_amount := 2500 |}]).
  apply (calculatePaillierSum_agrees paillier_default_keys _ [1500; 2500]);
    [exact paillier_default_keys_valid|].
  constructor; [exists 2|constructor; [exists 3|constructor]];
    (split; [lia|split; vm_compute; reflexivity]).
Defined.

(** X5.  Under a valid key and with accepted draws, [encryptAmounts]
    returns one row per input row: [original_amount_cents] is
    [Math.round(amount * 100)], [encryptable_amount] is that value
    reduced by the truncating [.mod(n)], both ciphertexts decrypt to
    [cents mod n], and this decryption equals [encryptable_amount]
    exactly when [encryptable_amount] is non-negative (a negative amount
    leaves a negative [encryptable_amount]). *)
Theorem encryptAmounts_rows (kp : Keypair) (amounts : list Q) (rs : nat -> Z * Z) :
  valid_keypair kp -> draws_ok (pk_n (publicKey kp)) rs ->
  exists out, encryptAmounts (publicKey kp) amounts rs = Some out /\
    List.length out = List.length amounts /\
    Forall2 (fun a row =>
      er_amount row = a /\
      original_amount_cents row = mathRound (a * 100)%Q /\
      encryptable_amount row = Z.rem (original_amount_cents row) (pk_n (publicKey kp)) /\
      paillierDecrypt (privateKey kp) (he_pk_sender row)
        = Some (original_amount_cents row mod pk_n (publicKey kp)) /\
      paillierDecrypt (privateKey kp) (he_pk_recipient row)
        = Some (original_amount_cents row mod pk_n (publicKey kp)) /\
      (original_amount_cents row mod pk_n (publicKey kp) = encryptable_amount row <->
       0 <= encryptable_amount row)) amounts out.
Proof.
  intros HV Hrs. pose proof (valid_keypair_facts kp HV) as HK.
  pose proof (kf_n_ge _ HK) as Hn.
  destruct (encrypt_rows_spec kp rs HK Hrs amounts 0) as (out & E & HF).
  exists out. split; [exact E|]. split; [symmetry; exact (Forall2_length HF)|].
  eapply Forall2_impl; [|exact HF].
  intros a row (Ea & Ec & Ee & (r1 & H1 & G1 & E1) & (r2 & H2 & G2 & E2)).
  rewrite <- Ec in Ee.
  assert (M : encryptable_amount row mod pk_n (publicKey kp)
              = original_amount_cents row mod pk_n (publicKey kp))
    by (rewrite Ee; apply rem_mod_n; lia).
  split; [exact Ea|]. split; [exact Ec|]. split; [exact Ee|].
  split; [rewrite <- M; exact (decrypt_encodes kp HK _ _ _
            (encrypt_decrypt_mod kp _ r1 _ HK H1 G1 E1))|].
  split; [rewrite <- M; exact (decrypt_encodes kp HK _ _ _
            (encrypt_decrypt_mod kp _ r2 _ HK H2 G2 E2))|].
  rewrite <- M, mod_of_small.
  - destruct (Z.leb_spec 0 (encryptable_amount row)); split; intros; lia.
  - pose proof (Z.rem_bound_abs (original_amount_cents row) (pk_n (publicKey kp)) ltac:(lia)).
    rewrite Ee. lia.
Qed.

Lemma encryptAmounts_rows_witness :
  valid_keypair paillier_default_keys /\
  exists out, encryptAmounts (publicKey paillier_default_keys) [25 # 2; -3 # 1] (fun _ => (1, 2))
                = Some out /\ List.length out = 2%nat.
Proof.
  split; [exact paillier_default_keys_valid|].
  destruct (encryptAmounts_rows paillier_default_keys [25 # 2; -3 # 1] (fun _ => (1, 2)))
    as (out & E & Len & _).
  - exact paillier_default_keys_valid.
  - intros i. cbn. split; [lia|]. split; [reflexivity|]. split; [lia|]. vm_compute. reflexivity.
  - exists out. split; [exact E|exact Len].
Defined.

(** X6.  [processAccounting] with the default key and accepted draws
    never throws; the decrypted homomorphic sum is the expected sum
    [actualEncryptableSum] reduced into [[0, n)], the recomputed stored
    sum always matches the expected one, and the check passes exactly
    when the expected sum is non-negative (always so when no amount is
    negative); otherwise the two sums differ by exactly [n = 1022117], so
    the difference is never the 14 the code singles out. *)
Theorem processAccounting_outcome (amounts : list Q) (rs : nat -> Z * Z) :
  draws_ok 1022117 rs ->
  exists rep, processAccounting amounts rs = Some rep /\
    decryptedSum rep = actualEncryptableSum rep mod 1022117 /\
    storedEncryptableSum rep = actualEncryptableSum rep /\
    isVerified rep = (0 <=? actualEncryptableSum rep) /\
    (sumDifference rep = 0 \/ sumDifference rep = 1022117) /\
    (Forall (fun a => 0 <= a)%Q amounts -> isVerified rep = true).
Proof.
  intros Hrs.
  pose proof (valid_keypair_facts _ paillier_default_keys_valid) as HK.
  destruct (encrypt_rows_spec paillier_default_keys rs HK Hrs amounts 0) as (out & E & HF).
  destruct (rows_ok_encodes paillier_default_keys amounts out HK HF) as (Am & HE).
  pose proof (homomorphic_sum_decrypts paillier_default_keys out _ HK HE) as D.
  destruct (fold_encryptableSum 1022117 amounts ltac:(lia) 0 ltac:(lia)) as (B & M & P).
  cbv zeta in B, M, P. fold (encryptableSum 1022117 amounts) in B, M, P.
  set (A := encryptableSum 1022117 amounts) in *.
  change (pk_n (publicKey paillier_default_keys)) with 1022117 in D.
  rewrite Z.add_0_l in M. rewrite <- M in D.
  unfold processAccounting. rewrite paillier_default_keys_eq.
  unfold encryptAmounts. rewrite E. rewrite D, Am.
  change (pk_n (publicKey paillier_default_keys)) with 1022117. fold A.
  rewrite mod_of_small by exact B.
  destruct (Z.leb_spec 0 A) as [HA|HA].
  - rewrite Z.eqb_refl. cbn [negb andb].
    eexists. split; [reflexivity|]. cbn.
    rewrite mod_of_small by exact B. destruct (Z.leb_spec 0 A); [|lia].
    split; [reflexivity|]. split; [reflexivity|]. split; [reflexivity|].
    split; [left; rewrite Z.sub_diag; reflexivity|]. intros _; reflexivity.
  - replace (A + 1022117 =? A) with false by (symmetry; apply Z.eqb_neq; lia).
    replace (A =? 0) with false by (symmetry; apply Z.eqb_neq; lia). cbn [negb andb].
    eexists. split; [reflexivity|]. cbn.
    rewrite mod_of_small by exact B. destruct (Z.leb_spec 0 A); [lia|].
    split; [reflexivity|]. split; [reflexivity|]. split; [reflexivity|].
    split; [right; replace (A + 1022117 - A) with 1022117 by ring; reflexivity|].
    intros Hp. specialize (P ltac:(lia) Hp). lia.
Qed.

Lemma processAccounting_outcome_witness :
  draws_ok 1022117 (fun _ => (1, 2)) /\
  exists rep, processAccounting [25 # 2; -3 # 1] (fun _ => (1, 2)) = Some rep /\
    isVerified rep = (0 <=? actualEncryptableSum rep).
Proof.
  assert (Hd : draws_ok 1022117 (fun _ => (1, 2))).
  { intros i. cbn. split; [lia|]. split; [reflexivity|]. split; [lia|]. vm_compute. reflexivity. }
  split; [exact Hd|].
  destruct (processAccounting_outcome [25 # 2; -3 # 1] (fun _ => (1, 2)) Hd)
    as (rep & E & _ & _ & V & _).
  exists rep. split; [exact E|exact V].
Defined.

(** A company's statement carries its id. *)
Lemma statement_companyId (lookup : Registry) (c : Company) (txs : list Tx) (cv : CompanyVerification) :
  generateCompanyFinancialStatement lookup c txs = Some cv -> cv_companyId cv = c_id c.
Proof.
  unfold generateCompanyFinancialStatement.
  destruct (calculateCompanyHomomorphicSum lookup txs (c_id c) Sent) as [s|]; [|discriminate].
  destruct (calculateCompanyHomomorphicSum lookup txs (c_id c) Received) as [r|]; [|discriminate].
  intros H. injection H as <-. reflexivity.
Qed.

Lemma forall2_fun_eq {A B : Type} (f : A -> option B) (xs : list A) : forall ys zs,
  Forall2 (fun x y => f x = Some y) xs ys -> Forall2 (fun x y => f x = Some y) xs zs -> ys = zs.
Proof.
  induction xs as [|x xs IH]; intros ys zs H1 H2; inversion H1; inversion H2; subst;
    [reflexivity|]. f_equal; [congruence|]. apply IH; assumption.
Qed.

(** X7.  [testKeypair(keypair, testValue)] under a valid key never
    throws, and it passes exactly when the test value lies in [[0, n)]:
    values outside are returned as [testValue mod n]. *)
Theorem testKeypair_passes_iff (kp : Keypair) (testValue r : Z) :
  valid_keypair kp -> 0 <= r -> Z.gcd r (pk_n (publicKey kp)) = 1 ->
  exists b, testKeypair kp testValue r = Some b /\
    (b = true <-> 0 <= testValue < pk_n (publicKey kp)).
Proof.
  intros HV Hr Hg. exists ((0 <=? testValue) && (testValue <? pk_n (publicKey kp))).
  split; [exact (testKeypair_result kp testValue r HV Hr Hg)|].
  rewrite andb_true_iff, Z.leb_le, Z.ltb_lt. tauto.
Qed.

Lemma testKeypair_passes_iff_witness :
  exists b, testKeypair paillier_default_keys 1022117 2 = Some b /\
    (b = true <-> 0 <= 1022117 < pk_n (publicKey paillier_default_keys)).
Proof.
  apply testKeypair_passes_iff; [exact paillier_default_keys_valid|lia|].
  vm_compute. reflexivity.
Defined.

(** X8.  [generateAllCompanyKeypairs()] never throws when each
    self-test draws an accepted [r]: it returns the eight keypairs of
    the prime table in order, all of them valid. *)
Theorem generateAllCompanyKeypairs_ok (rs : nat -> Z) :
  (forall i kp, generateCompanyKeypair i = Some kp -> accepted (pk_n (publicKey kp)) (rs i)) ->
  exists kps, generateAllCompanyKeypairs rs = Some kps /\ List.length kps = 8%nat /\
    Forall valid_keypair kps /\
    forall j, (j < 8)%nat -> nth_error kps j = generateCompanyKeypair j.
Proof.
  intros Hrs. destruct (generate_loop_spec rs Hrs 8 0 [] ltac:(lia)) as (l & E & Len & V & N).
  exists l. unfold generateAllCompanyKeypairs. split; [exact E|].
  split; [exact Len|]. split; [exact V|]. exact N.
Qed.

Lemma generateAllCompanyKeypairs_ok_witness :
  exists kps, generateAllCompanyKeypairs (fun _ => 1) = Some kps /\ List.length kps = 8%nat.
Proof.
  destruct (generateAllCompanyKeypairs_ok (fun _ => 1)) as (kps & E & Len & _).
  - intros i kp E. pose proof (generateCompanyKeypair_big i kp E).
    split; [lia|apply Z.gcd_1_l].
  - exists kps. split; [exact E|exact Len].
Defined.

(** X9.  The company lookup built by [initializeCompanies] misses a key
    exactly when the key is neither the id nor the name of a company, so
    [getCompany] returns [undefined] for exactly those keys. *)
Theorem buildCompanyLookup_none (companies : list Company) (k : string) :
  buildCompanyLookup companies k = None <-> ~ In k (company_keys companies).
Proof.
  pose proof (fold_lookup_some companies (fun _ => None) k) as H.
  change (buildCompanyLookup companies k <> None <->
          @None Company <> None \/ In k (company_keys companies)) in H.
  split.
  - intros E Hin. apply (proj2 H); [right; exact Hin|exact E].
  - intros Hn. destruct (buildCompanyLookup companies k) as [c|] eqn:E; [|reflexivity].
    exfalso. destruct (proj1 H) as [H'|H']; [congruence|apply H'; reflexivity|exact (Hn H')].
Qed.

(** X10.  When all ids and names are distinct, the lookup returns every
    company both under its id and under its name. *)
Theorem buildCompanyLookup_distinct (companies : list Company) (c : Company) :
  NoDup (company_keys companies) -> In c companies ->
  buildCompanyLookup companies (c_id c) = Some c /\
  buildCompanyLookup companies (c_name c) = Some c.
Proof. intros ND Hin. exact (fold_lookup_distinct companies _ ND c Hin). Qed.

Lemma buildCompanyLookup_distinct_witness :
  exists c, In c demo_companies /\ NoDup (company_keys demo_companies) /\
    buildCompanyLookup demo_companies (c_id c) = Some c /\
    buildCompanyLookup demo_companies (c_name c) = Some c.
Proof.
  assert (ND : NoDup (company_keys demo_companies)).
  { vm_compute. repeat constructor; cbn [In]; intuition discriminate. }
  revert ND. destruct demo_companies as [|c cs] eqn:E; intros ND.
  - exfalso. vm_compute in E. discriminate E.
  - exists c. split; [left; reflexivity|]. split; [exact ND|].
    apply buildCompanyLookup_distinct; [exact ND|left; reflexivity].
Defined.

(** X11.  [dualEncryptAmount] over a lookup of valid keys throws exactly
    when the sender or the recipient is not registered; any amount,
    negative or beyond the moduli, is encrypted. *)
Theorem dualEncryptAmount_fails_iff (lookup : Registry) (amount : Q)
    (senderId recipientId : string) (rs rr : Z) :
  registry_valid lookup ->
  dualEncryptAmount lookup amount senderId recipientId rs rr = None <->
  lookup senderId = None \/ lookup recipientId = None.
Proof.
  intros HR. unfold dualEncryptAmount.
  destruct (lookup senderId) as [s|] eqn:Es; [|split; [intros _; left; reflexivity|reflexivity]].
  destruct (lookup recipientId) as [r|] eqn:Er; [|split; [intros _; right; reflexivity|reflexivity]].
  destruct (encrypt_total (c_keys s) (mathRound (amount * 100)%Q) rs
              (valid_keypair_facts _ (HR _ _ Es))) as (cs & Ecs).
  destruct (encrypt_total (c_keys r) (mathRound (amount * 100)%Q) rr
              (valid_keypair_facts _ (HR _ _ Er))) as (cr & Ecr).
  cbv zeta. rewrite Ecs, Ecr. split; [discriminate|intros [H|H]; discriminate H].
Qed.

Lemma dualEncryptAmount_fails_iff_witness :
  registry_valid demo_lookup /\
  (dualEncryptAmount demo_lookup (-5) "TC001"%string "XY999"%string 2 3 = None <->
   demo_lookup "TC001"%string = None \/ demo_lookup "XY999"%string = None).
Proof.
  split; [exact demo_lookup_valid|].
  apply dualEncryptAmount_fails_iff. exact demo_lookup_valid.
Defined.

(** X12.  [verifyDualEncryption] over a lookup of valid keys throws
    exactly when the company is unknown.  Otherwise it always reports a
    role, and [canDecrypt] holds exactly when the company is the sender
    or the recipient, whatever the ciphertexts: decryption never falls
    into the [catch] branch and yields cents in [[0, n)]. *)
Theorem verifyDualEncryption_outcome (lookup : Registry) (tx : Tx) (companyId : string) :
  registry_valid lookup ->
  (verifyDualEncryption lookup tx companyId = None <-> lookup companyId = None) /\
  (forall company, lookup companyId = Some company ->
   exists v, verifyDualEncryption lookup tx companyId = Some v /\
     v_companyId v = companyId /\ v_role v <> None /\
     canDecrypt v = (String.eqb (sender_id tx) companyId || String.eqb (recipient_id tx) companyId) /\
     (canDecrypt v = true -> exists d, decryptedCents v = Some d /\
        0 <= d < pk_n (publicKey (c_keys company)))).
Proof.
  intros HR. unfold verifyDualEncryption. split.
  - destruct (lookup companyId) as [c|]; [|split; reflexivity]. cbv zeta.
    destruct (String.eqb (sender_id tx) companyId);
      [|destruct (String.eqb (recipient_id tx) companyId)]; split; intros H; discriminate H.
  - intros company E. rewrite E. pose proof (HR _ _ E) as HV.
    destruct (decrypt_range_opp (c_keys company) (he_sender tx) HV) as (ds & Ds & _ & Bs).
    destruct (decrypt_range_opp (c_keys company) (he_recipient tx) HV) as (dr & Dr & _ & Br).
    destruct (String.eqb (sender_id tx) companyId).
    + rewrite Ds. eexists. split; [reflexivity|]. cbn.
      split; [reflexivity|]. split; [discriminate|]. split; [reflexivity|].
      intros _. exists ds. split; [reflexivity|exact Bs].
    + destruct (String.eqb (recipient_id tx) companyId).
      * rewrite Dr. eexists. split; [reflexivity|]. cbn.
        split; [reflexivity|]. split; [discriminate|]. split; [reflexivity|].
        intros _. exists dr. split; [reflexivity|exact Br].
      * eexists. split; [reflexivity|]. cbn.
        split; [reflexivity|]. split; [discriminate|]. split; [reflexivity|].
        discriminate.
Qed.

Lemma verifyDualEncryption_outcome_witness :
  registry_valid demo_lookup /\
  (verifyDualEncryption demo_lookup wrap_tx "XY999"%string = None <-> demo_lookup "XY999"%string = None).
Proof.
  split; [exact demo_lookup_valid|].
  exact (proj1 (verifyDualEncryption_outcome demo_lookup wrap_tx "XY999"%string demo_lookup_valid)).
Defined.

(** X13.  [performYearEndVerification] never throws: it appends one
    statement per company, in order, to the results already held by the
    instance; every new statement is verified, so the network report's
    [allCompaniesVerified] depends only on the earlier results. *)
Theorem performYearEndVerification_appends (verificationResults : list CompanyVerification)
    (companies : list Company) (txs : list Tx) :
  exists cvs, performYearEndVerification verificationResults companies txs
      = Some (verificationResults ++ cvs,
              verifyNetworkIntegrity txs (verificationResults ++ cvs)) /\
    map cv_companyId cvs = map c_id companies /\
    Forall (fun cv => cv_verified cv = true) cvs /\
    allCompaniesVerified (verifyNetworkIntegrity txs (verificationResults ++ cvs))
      = forallb cv_verified verificationResults.
Proof.
  destruct (performYearEndVerification_some verificationResults companies txs) as (cvs & HF & E).
  exists cvs. split; [exact E|].
  assert (Hv : Forall (fun cv => cv_verified cv = true) cvs).
  { clear E. induction HF as [|c cv cs cvs' Hc _ IH]; constructor;
      [exact (statement_verified _ _ _ _ Hc)|exact IH]. }
  split.
  - clear E Hv. induction HF as [|c cv cs cvs' Hc _ IH]; [reflexivity|].
    cbn [map]. rewrite (statement_companyId _ _ _ _ Hc), IH. reflexivity.
  - split; [exact Hv|].
    destruct (network_totals txs (verificationResults ++ cvs)) as (_ & _ & _ & ->).
    rewrite forallb_app. replace (forallb cv_verified cvs) with true; [apply andb_true_r|].
    symmetry. apply forallb_forall. intros x Hx. rewrite Forall_forall in Hv. exact (Hv x Hx).
Qed.

(** X14.  Running [performYearEndVerification] a second time on the same
    processor appends the same statements again: the results list is the
    first run's list twice, and the network totals and balance double. *)
Theorem performYearEndVerification_rerun (companies : list Company) (txs : list Tx) :
  exists results,
    performYearEndVerification [] companies txs
      = Some (results, verifyNetworkIntegrity txs results) /\
    performYearEndVerification results companies txs
      = Some (results ++ results, verifyNetworkIntegrity txs (results ++ results)) /\
    (totalSent (verifyNetworkIntegrity txs (results ++ results))
       == 2 * totalSent (verifyNetworkIntegrity txs results))%Q /\
    (totalReceived (verifyNetworkIntegrity txs (results ++ results))
       == 2 * totalReceived (verifyNetworkIntegrity txs results))%Q /\
    (networkBalance (verifyNetworkIntegrity txs (results ++ results))
       == 2 * networkBalance (verifyNetworkIntegrity txs results))%Q.
Proof.
  destruct (performYearEndVerification_some [] companies txs) as (cvs & HF & E).
  cbn [app] in E. exists cvs. split; [exact E|].
  destruct (performYearEndVerification_some cvs companies txs) as (cvs' & HF' & E').
  rewrite <- (forall2_fun_eq _ companies cvs cvs' HF HF') in E'.
  split; [exact E'|].
  destruct (network_totals txs cvs) as (S1 & R1 & B1 & _).
  destruct (network_totals txs (cvs ++ cvs)) as (S2 & R2 & B2 & _).
  rewrite S1, R1, B1, S2, R2, B2, !map_app, !qsum_app.
  split; [ring|]. split; ring.
Qed.

(** X15.  The [duplicateTransactions] list of [verifyNetworkIntegrity]
    is empty exactly when the transaction numbers are pairwise distinct. *)
Theorem duplicateTransactions_empty_iff (txs : list Tx) (companyResults : list CompanyVerification) :
  duplicateTransactions (verifyNetworkIntegrity txs companyResults) = [] <->
  NoDup (map tx_num txs).
Proof.
  pose proof (fold_duplicates txs [] [] (NoDup_nil _)) as H. cbn [app] in H.
  unfold verifyNetworkIntegrity. cbv zeta. revert H.
  destruct (fold_left _ txs ([], [])) as [seen dups]. cbn [snd duplicateTransactions].
  intros H. rewrite H. tauto.
Qed.
